(** * val_bench: a shallow embedding of the PGO benchmark pipeline

    The development follows [src/val_bench.cpp]: the checksum function,
    the worker process, the aggregator thread task, the aggregator
    process and the part of [main] that computes worker ordinals and
    leak flags.  Machine integers are [Z] with the wrap-around written
    out, memory and file contents are lists of bytes, the operating
    system (open, write, the allocator, the random source) is an explicit
    oracle.  A process that writes through a null pointer is killed by
    SIGSEGV, as the target does. *)

From Stdlib Require Import ZArith Lia Bool Sorted Permutation.
From Stdlib Require Import Strings.Ascii Strings.String Strings.Byte.
From Stdlib Require Import Numbers.DecimalString Numbers.DecimalZ.
From stdpp Require Import base list.

Local Open Scope Z_scope.

(** ** Configuration (lines 17-22) *)

Definition NUM_WORKER_CHILDREN : nat := 5.
Definition NUM_AGGREGATOR_THREADS : nat := 3.
Definition BUFFER_SIZE : nat := 1024.
Definition WRITES_PER_WORKER : nat := 50.
Definition FILE_PREFIX : string := "/tmp/pgo_benchmark_".

Definition EXIT_SUCCESS : Z := 0.
Definition EXIT_FAILURE : Z := 1.

(** ** Machine arithmetic *)

(** [uint32_t]: every operation is reduced modulo 2^32. *)
Definition u32 (z : Z) : Z := z mod 2 ^ 32.

(** Whether plain [char] is signed is fixed by the platform ABI; the
    source reads its buffers through [const char*], so the model keeps
    the choice explicit. *)
Class ABI := { char_signed : bool }.

(** x86 and x86-64 System V: [char] is signed. *)
Definition abi_signed_char : ABI := {| char_signed := true |}.
(** ARM and PowerPC Linux: [char] is unsigned. *)
Definition abi_unsigned_char : ABI := {| char_signed := false |}.

(** The value of a byte as an unsigned quantity, in [0, 255]. *)
Definition byte_val (b : byte) : Z := Z.of_N (Byte.to_N b).

(** The value of the expression [buffer[i]] of type [char] after integer
    promotion to [int]. *)
Definition char_to_int `{ABI} (b : byte) : Z :=
  if char_signed && (128 <=? byte_val b) then byte_val b - 256 else byte_val b.

(** [static_cast<char>(v)] for an [int] [v]: the stored byte. *)
Definition static_cast_char (v : Z) : byte :=
  match Byte.of_N (Z.to_N (v mod 256)) with
  | Some b => b
  | None => x00
  end.

(** ** Checksum function (lines 45-51) *)

Section Checksum.
Context `{ABI}.

(** One iteration of the loop body:
    [checksum = (checksum << 5) + checksum + buffer[i]]. *)
Definition checksum_step (checksum : Z) (b : byte) : Z :=
  u32 (u32 (u32 (Z.shiftl checksum 5) + checksum) + u32 (char_to_int b)).

(** [calculate_checksum(buffer, size)]: the loop visits indices
    [0 .. size-1] of [buffer] in order, starting from zero. *)
Definition calculate_checksum (buffer : list byte) (size : nat) : Z :=
  fold_left checksum_step (take size buffer) 0.

(** The recurrence of the specification, over an arbitrary reading of
    the bytes as integers. *)
Definition fold33 (value : byte -> Z) (block : list byte) : Z :=
  fold_left (fun c b => (c * 33 + value b) mod 2 ^ 32) block 0.

(** [file_checksum += c] on [uint32_t]. *)
Definition add_checksum (acc c : Z) : Z := u32 (acc + c).

(** The aggregator's way of combining chunks: a fresh
    [calculate_checksum] per chunk, added into the accumulator. *)
Definition chunked_checksum (chunks : list (list byte)) : Z :=
  fold_left (fun acc chunk => add_checksum acc (calculate_checksum chunk (length chunk)))
            chunks 0.
End Checksum.

(** ** Text helpers *)

Global Instance string_eq_decision : EqDecision string := String.string_dec.

Definition newline : string := String "010"%char EmptyString.

(** [std::to_string] on an [int] and [operator<<] on a [uint32_t]: the
    decimal rendering, with a leading minus sign for negative values. *)
Definition to_string (z : Z) : string := NilEmpty.string_of_int (Z.to_int z).

(** Splits a text at its newline characters; every newline ends a line. *)
Fixpoint lines (s : string) : list string :=
  match s with
  | EmptyString => []
  | String c s' =>
      if Ascii.eqb c "010"%char then EmptyString :: lines s'
      else match lines s' with
           | [] => [String c EmptyString]
           | l :: ls => String c l :: ls
           end
  end.

Fixpoint has_newline (s : string) : bool :=
  match s with
  | EmptyString => false
  | String c s' => Ascii.eqb c "010"%char || has_newline s'
  end.

(** ** Random data (lines 35-42) *)

(** [generate_random_data(buffer, size)]: a fresh generator is built on
    every call; [draw i] is the value [distrib(gen)] returns for index
    [i].  The first [size] bytes of the buffer are overwritten. *)
Definition generate_random_data (draw : nat -> Z) (buffer : list byte) (size : nat)
  : list byte :=
  map (fun i => static_cast_char (draw i)) (seq 0 size) ++ drop size buffer.

(** ** Worker process (lines 54-94) *)

(** What one [write(fd, buf, count)] call does: fail with -1, or
    transfer some prefix of the buffer. *)
Inductive write_result :=
| WriteError
| Written (n : nat).

Definition sys_write (r : write_result) (file buf : list byte) (count : nat)
  : list byte * Z :=
  match r with
  | WriteError => (file, -1)
  | Written n => let k := Nat.min n count in (file ++ take k buf, Z.of_nat k)
  end.

(** The environment of a worker: the outcome of [open], the contents
    of the freshly allocated data buffer, whether the allocator finds
    memory for the block to leak, the random source and the outcome of
    every [write] call. *)
Record worker_env := {
  open_ok : bool;
  heap_garbage : list byte;
  malloc_ok : bool;
  distrib : nat -> nat -> Z;
  write_ret : nat -> write_result
}.

Record write_state := {
  file : list byte;
  data_buffer : list byte;
  total_checksum : Z;
  diagnostics : list string
}.

(** [int] arithmetic as the target performs it: 32 bits, two's
    complement, wrapping around on overflow. *)
Definition int32 (z : Z) : Z := (z + 2 ^ 31) mod 2 ^ 32 - 2 ^ 31.

(** The conversion of an [int] to [size_t], 64 bits wide: a negative
    value becomes a value above [PTRDIFF_MAX]. *)
Definition size_t_of_int (z : Z) : Z := z mod 2 ^ 64.

Definition PTRDIFF_MAX : Z := 2 ^ 63 - 1.

Definition SIGSEGV : Z := 11.

(** [malloc(n)] for a [size_t] [n]: a request above [PTRDIFF_MAX]
    fails, and so does any request when the allocator finds no memory
    ([available] is false); a failure yields the null pointer, rendered
    as [None].  Otherwise the result is a block of [n] bytes; their
    content is indeterminate and rendered as zero bytes. *)
Definition malloc (available : bool) (n : Z) : option (list byte) :=
  if available && (n <=? PTRDIFF_MAX)
  then Some (replicate (Z.to_nat n) x00) else None.

(** [strcpy(dest, src)] copies the characters of [src] and the
    terminating NUL to the front of [dest]; writing past the end of
    [dest] is undefined behaviour, rendered as [None]. *)
Definition strcpy (dest : list byte) (src : string) : option (list byte) :=
  let bytes := list_byte_of_string src ++ [x00] in
  if (length bytes <=? length dest)%nat
  then Some (bytes ++ drop (length bytes) dest)
  else None.

Definition leak_message : string := "This is a deliberate memory leak.".

(** The terminal heap branch taken by a worker: the data buffer is
    freed; or a block of [size] bytes is allocated, filled by [strcpy]
    and never freed; or the allocation of [request] bytes fails and
    nothing is allocated. *)
Inductive heap_path :=
| Freed
| Leaked (size : Z) (contents : list byte)
| NullBlock (request : Z).

(** How a process ends: by [exit] with a status, killed by a signal, or
    in a way the language leaves undefined. *)
Inductive termination :=
| Exited (status : Z)
| Killed (signal : Z)
| Undefined.

(** Lines 82-93.  The size is computed in [int] and converted to
    [size_t]; the result of [malloc] is not checked, so after a failed
    allocation [strcpy] writes through the null pointer and the process
    is killed by SIGSEGV before it reaches [exit]. *)
Definition terminal_branch (env : worker_env) (worker_id : Z) (should_leak : bool)
  : heap_path * termination :=
  if should_leak then
    let size := int32 (128 * worker_id + 64) in
    match malloc (malloc_ok env) (size_t_of_int size) with
    | None => (NullBlock (size_t_of_int size), Killed SIGSEGV)
    | Some leaked_memory =>
        match strcpy leaked_memory leak_message with
        | Some contents => (Leaked size contents, Exited EXIT_SUCCESS)
        | None => (Leaked size leaked_memory, Undefined)
        end
    end
  else (Freed, Exited EXIT_SUCCESS).

Record worker_result := {
  outcome : termination;
  artifact_name : string;
  artifact : option (list byte);
  reported_checksum : Z;
  worker_diagnostics : list string;
  heap : option heap_path
}.

Section Worker.
Context `{ABI}.
Variable env : worker_env.

(** The loop of lines 68-76; [i] is the loop counter and [remaining]
    the number of iterations left before [i] reaches
    [WRITES_PER_WORKER]. *)
Fixpoint write_loop (remaining i : nat) (st : write_state) : write_state :=
  match remaining with
  | O => st
  | S remaining' =>
      let buf := generate_random_data (distrib env i) (data_buffer st) BUFFER_SIZE in
      let '(file', bytes_written) := sys_write (write_ret env i) (file st) buf BUFFER_SIZE in
      if negb (bytes_written =? Z.of_nat BUFFER_SIZE) then
        {| file := file'; data_buffer := buf;
           total_checksum := total_checksum st;
           diagnostics := diagnostics st ++ ["Worker failed to write all bytes"%string] |}
      else
        write_loop remaining' (S i)
          {| file := file'; data_buffer := buf;
             total_checksum :=
               add_checksum (total_checksum st) (calculate_checksum buf BUFFER_SIZE);
             diagnostics := diagnostics st |}
  end.

Definition run_worker_process (worker_id : Z) (should_leak : bool) : worker_result :=
  let filename := (FILE_PREFIX ++ to_string worker_id ++ ".dat")%string in
  if negb (open_ok env) then
    {| outcome := Exited EXIT_FAILURE; artifact_name := filename; artifact := None;
       reported_checksum := 0;
       worker_diagnostics := ["Failed to open file in worker"%string];
       heap := None |}
  else
    let st := write_loop WRITES_PER_WORKER 0
                {| file := []; data_buffer := heap_garbage env;
                   total_checksum := 0; diagnostics := [] |} in
    {| outcome := snd (terminal_branch env worker_id should_leak);
       artifact_name := filename;
       artifact := Some (file st);
       reported_checksum := total_checksum st;
       worker_diagnostics := diagnostics st;
       heap := Some (fst (terminal_branch env worker_id should_leak)) |}.
End Worker.

(** The leak flag [main] passes to worker [i] (line 183): [i % 2 != 0],
    with the truncating remainder of C++. *)
Definition should_leak_flag (i : Z) : bool := negb (Z.rem i 2 =? 0).

(** The calls [run_worker_process(i, i % 2 != 0)] made by the children
    forked in [main]. *)
Definition main_worker_calls : list (Z * bool) :=
  map (fun i => (Z.of_nat i, should_leak_flag (Z.of_nat i))) (seq 0 NUM_WORKER_CHILDREN).

(** ** Input file stream (std::ifstream as used on lines 102-115) *)

Record ifstream := {
  unread : list byte;
  gcount : nat;
  failbit : bool
}.

Definition ifstream_open (contents : list byte) : ifstream :=
  {| unread := contents; gcount := 0; failbit := false |}.

(** [infile.read(buffer, n)] extracts up to [n] bytes into the front of
    [buffer]; when the end of the file comes first the stream fails and
    [gcount] is the number of bytes that were extracted.  On a stream
    that has already failed nothing is extracted.  Device errors in the
    middle of a file are outside the model. *)
Definition ifstream_read (s : ifstream) (buffer : list byte) (n : nat)
  : ifstream * list byte :=
  if failbit s then
    ({| unread := unread s; gcount := 0; failbit := true |}, buffer)
  else
    let got := take n (unread s) in
    ({| unread := drop n (unread s);
        gcount := length got;
        failbit := negb (length got =? n)%nat |},
     got ++ drop (length got) buffer).

(** ** Shared report (std::map<std::string, uint32_t>) *)

(** The ordered map is kept as an association list sorted by key, the
    order in which the source iterates over it. *)
Definition summary := list (string * Z).

(** [summary[k] = v]. *)
Fixpoint map_assign (k : string) (v : Z) (m : summary) : summary :=
  match m with
  | [] => [(k, v)]
  | (k', v') :: m' =>
      match String.compare k k' with
      | Lt => (k, v) :: m
      | Eq => (k, v) :: m'
      | Gt => (k', v') :: map_assign k v m'
      end
  end.

Fixpoint map_find (k : string) (m : summary) : option Z :=
  match m with
  | [] => None
  | (k', v') :: m' => if String.eqb k k' then Some v' else map_find k m'
  end.

Definition string_lt (a b : string) : Prop := String.compare a b = Lt.

(** ** Aggregator thread task (lines 99-122) *)

(** What a task does, in program order. *)
Inductive event :=
| EvOpen (filename : string) (ok : bool)
| EvCerr (thread_id : nat) (filename : string)
| EvRead (requested got : nat)
| EvFold (bytes : list byte)
| EvLock
| EvInsert (filename : string) (checksum : Z)
| EvCout (thread_id : nat) (filename : string) (checksum : Z)
| EvUnlock
| EvClose (filename : string).

(** Events that perform input or output. *)
Definition is_io (e : event) : bool :=
  match e with
  | EvOpen _ _ | EvCerr _ _ | EvRead _ _ | EvCout _ _ _ | EvClose _ => true
  | EvFold _ | EvLock | EvInsert _ _ | EvUnlock => false
  end.

(** Events that touch the artifact being aggregated. *)
Definition is_file_io (e : event) : bool :=
  match e with
  | EvOpen _ _ | EvRead _ _ | EvClose _ => true
  | _ => false
  end.

Record read_state := {
  rs_stream : ifstream;
  rs_buffer : list byte;
  rs_checksum : Z;
  rs_events : list event
}.

(** The filesystem as the aggregator sees it: the bytes of an artifact
    at the time it is opened, or [None] when [open] fails. *)
Definition filesystem := string -> option (list byte).

Section Task.
Context `{ABI}.

(** The [while] loop of lines 109-111.  Every successful read consumes
    [BUFFER_SIZE] bytes, so [fuel] bounds the number of iterations. *)
Fixpoint read_loop (fuel : nat) (st : read_state) : option read_state :=
  match fuel with
  | O => None
  | S fuel' =>
      let '(s', buf') := ifstream_read (rs_stream st) (rs_buffer st) BUFFER_SIZE in
      let ev := rs_events st ++ [EvRead BUFFER_SIZE (gcount s')] in
      if failbit s' then
        Some {| rs_stream := s'; rs_buffer := buf';
                rs_checksum := rs_checksum st; rs_events := ev |}
      else
        read_loop fuel'
          {| rs_stream := s'; rs_buffer := buf';
             rs_checksum :=
               add_checksum (rs_checksum st) (calculate_checksum buf' (gcount s'));
             rs_events := ev ++ [EvFold (take (gcount s') buf')] |}
  end.

(** Lines 112-115: the last partial read. *)
Definition last_partial_read (st : read_state) : read_state :=
  if (0 <? gcount (rs_stream st))%nat then
    {| rs_stream := rs_stream st; rs_buffer := rs_buffer st;
       rs_checksum :=
         add_checksum (rs_checksum st)
           (calculate_checksum (rs_buffer st) (gcount (rs_stream st)));
       rs_events :=
         rs_events st ++ [EvFold (take (gcount (rs_stream st)) (rs_buffer st))] |}
  else st.

(** Lines 108-115 for one opened artifact. *)
Definition read_file (contents : list byte) (read_buffer : list byte)
  : option read_state :=
  st ← read_loop (S (length contents))
         {| rs_stream := ifstream_open contents; rs_buffer := read_buffer;
            rs_checksum := 0; rs_events := [] |};
  Some (last_partial_read st).

Variable fs : filesystem.

(** The body of the [for] loop over the task's files.  The lock guard
    is constructed after the read loop and destroyed, before the
    stream, at the end of the body. *)
Definition loop_body (thread_id : nat) (filename : string)
    (read_buffer : list byte) (m : summary)
  : option (list byte * summary * list event) :=
  match fs filename with
  | None => Some (read_buffer, m, [EvOpen filename false; EvCerr thread_id filename])
  | Some contents =>
      st ← read_file contents read_buffer;
      let file_checksum := rs_checksum st in
      Some (rs_buffer st, map_assign filename file_checksum m,
            EvOpen filename true :: rs_events st
            ++ [EvLock; EvInsert filename file_checksum;
                EvCout thread_id filename file_checksum; EvUnlock; EvClose filename])
  end.

(** The task run on its own. *)
Fixpoint aggregate_files_task (thread_id : nat) (files : list string)
    (read_buffer : list byte) (m : summary) : option (summary * list event) :=
  match files with
  | [] => Some (m, [])
  | filename :: rest =>
      '(buf, m', ev) ← loop_body thread_id filename read_buffer m;
      '(m'', ev') ← aggregate_files_task thread_id rest buf m';
      Some (m'', ev ++ ev')
  end.
End Task.

(** ** Aggregator process (lines 124-165) *)

Definition worker_files (n : nat) : list string :=
  map (fun i => (FILE_PREFIX ++ to_string (Z.of_nat i) ++ ".dat")%string) (seq 0 n).

(** Lines 135-140: [work_chunks[i % nthreads].push_back(files[i])]. *)
Definition distribute (nthreads : nat) (files : list string) : list (list string) :=
  fold_left
    (fun work_chunks i =>
       alter (fun chunk => chunk ++ [nth i files EmptyString]) (i mod nthreads)%nat
             work_chunks)
    (seq 0 (length files))
    (replicate nthreads []).

Definition summary_header : string := "--- PGO Benchmark Summary Report ---".

Definition summary_line (entry : string * Z) : string :=
  ("File: " ++ fst entry ++ ", Checksum: " ++ to_string (snd entry))%string.

(** Lines 156-161: the stream receives the header, then the pieces of
    each entry in the map's iteration order. *)
Definition write_summary (m : summary) : string :=
  fold_left
    (fun outfile pair =>
       (((((outfile ++ "File: ") ++ fst pair) ++ ", Checksum: ")
           ++ to_string (snd pair)) ++ newline)%string)
    m
    (summary_header ++ newline)%string.

(** A thread of the pool: the files it has not processed yet and its
    private read buffer. *)
Record thread := {
  pending : list string;
  read_buffer : list byte
}.

Record pool_state := {
  threads : list thread;
  report : summary;
  log : list (nat * event)
}.

Section Aggregator.
Context `{ABI}.
Variable fs : filesystem.

(** Thread [t] runs one iteration of its loop.  The body only shares
    the report with the other threads and updates it under the lock,
    so whole iterations are the unit of interleaving.  A thread that
    has finished, or an identifier outside the pool, does nothing. *)
Definition thread_step (t : nat) (st : pool_state) : option pool_state :=
  match threads st !! t with
  | Some th =>
      match pending th with
      | [] => Some st
      | filename :: rest =>
          '(buf, m, ev) ← loop_body fs t filename (read_buffer th) (report st);
          Some {| threads := <[t := {| pending := rest; read_buffer := buf |}]> (threads st);
                  report := m;
                  log := log st ++ map (pair t) ev |}
      end
  | None => Some st
  end.

(** The pool under a schedule: the thread chosen at each step. *)
Fixpoint run_threads (schedule : list nat) (st : pool_state) : option pool_state :=
  match schedule with
  | [] => Some st
  | t :: schedule' => st' ← thread_step t st; run_threads schedule' st'
  end.

(** Every [join] returns once no thread has work left. *)
Definition all_joined (st : pool_state) : bool :=
  forallb (fun th => match pending th with [] => true | _ => false end) (threads st).

Definition launch (nworkers nthreads : nat) (stack : nat -> list byte) : pool_state :=
  {| threads :=
       imap (fun t chunk => {| pending := chunk; read_buffer := stack t |})
            (distribute nthreads (worker_files nworkers));
     report := [];
     log := [] |}.

(** [run_aggregator_process]: the final report, the text of the
    summary artifact and the exit status.  [stack t] is the initial
    content of thread [t]'s read buffer; a schedule that leaves a
    thread unfinished never passes the joins and yields [None]. *)
Definition run_aggregator_process (stack : nat -> list byte) (schedule : list nat)
  : option (pool_state * string * Z) :=
  st ← run_threads schedule (launch NUM_WORKER_CHILDREN NUM_AGGREGATOR_THREADS stack);
  if all_joined st then Some (st, write_summary (report st), EXIT_SUCCESS) else None.
End Aggregator.

(** ** Reference functions used to state the properties *)

(** The split of a file into consecutive chunks of exactly [n] bytes
    and a shorter last chunk. *)
Fixpoint full_chunks (fuel n : nat) (l : list byte) : list (list byte) :=
  match fuel with
  | O => []
  | S fuel' =>
      if (length l <? n)%nat then []
      else take n l :: full_chunks fuel' n (drop n l)
  end.

Fixpoint last_chunk (fuel n : nat) (l : list byte) : list byte :=
  match fuel with
  | O => l
  | S fuel' =>
      if (length l <? n)%nat then l else last_chunk fuel' n (drop n l)
  end.

Definition nonempty_chunk (c : list byte) : list (list byte) :=
  match c with [] => [] | _ => [c] end.

Definition file_chunks (contents : list byte) : list (list byte) :=
  full_chunks (S (length contents)) BUFFER_SIZE contents
  ++ nonempty_chunk (last_chunk (S (length contents)) BUFFER_SIZE contents).

(** The name of the artifact of worker [i]. *)
Definition artifact_path (i : nat) : string :=
  (FILE_PREFIX ++ to_string (Z.of_nat i) ++ ".dat")%string.

(** The block the worker generates in iteration [k]. *)
Definition block_of (env : worker_env) (k : nat) : list byte :=
  map (fun i => static_cast_char (distrib env k i)) (seq 0 BUFFER_SIZE).

(** A [write] that transfers the whole buffer. *)
Definition full_write (r : write_result) : bool :=
  match r with
  | Written n => (BUFFER_SIZE <=? n)%nat
  | WriteError => false
  end.

(** The bytes a failing [write] still appends to the artifact. *)
Definition partial_block (env : worker_env) (k : nat) : list byte :=
  match write_ret env k with
  | Written n => take n (block_of env k)
  | WriteError => []
  end.

Definition read_or_fold (e : event) : bool :=
  match e with
  | EvRead _ _ | EvFold _ => true
  | _ => false
  end.

(** The byte blocks handed to [calculate_checksum], in call order. *)
Fixpoint folded (tr : list event) : list (list byte) :=
  match tr with
  | [] => []
  | EvFold bytes :: tr' => bytes :: folded tr'
  | _ :: tr' => folded tr'
  end.

Definition sum_Z (l : list Z) : Z := foldr Z.add 0 l.

(** The checksum the aggregator records for an artifact with the given
    bytes. *)
Definition recomputed_checksum `{ABI} (contents : list byte) : Z :=
  chunked_checksum (file_chunks contents).

(** The stretches of a trace between taking the lock and releasing it. *)
Fixpoint sections_aux (cur : option (list event)) (tr : list event) : list (list event) :=
  match tr with
  | [] => match cur with Some c => [c] | None => [] end
  | EvLock :: tr' => sections_aux (Some []) tr'
  | EvUnlock :: tr' =>
      match cur with
      | Some c => c :: sections_aux None tr'
      | None => sections_aux None tr'
      end
  | e :: tr' =>
      match cur with
      | Some c => sections_aux (Some (c ++ [e])) tr'
      | None => sections_aux None tr'
      end
  end.

Definition lock_sections (tr : list event) : list (list event) := sections_aux None tr.

Definition no_lock (e : event) : bool :=
  match e with
  | EvLock | EvUnlock => false
  | _ => true
  end.

(** The critical section of the iteration that aggregates [filename]:
    none when the open fails, otherwise the insert and the console
    line. *)
Definition file_section `{ABI} (fs : filesystem) (thread_id : nat) (filename : string)
  : option (list event) :=
  match fs filename with
  | Some contents =>
      Some [EvInsert filename (recomputed_checksum contents);
            EvCout thread_id filename (recomputed_checksum contents)]
  | None => None
  end.

(** The text after the header line of the summary artifact. *)
Definition summary_body (m : summary) : string :=
  foldr (fun e s => (summary_line e ++ newline ++ s)%string) EmptyString m.

(** The files no thread of the pool has processed yet. *)
Definition pending_all (st : pool_state) : list string :=
  concat (map pending (threads st)).

(** What holds of the pool between iterations: the expected files are
    those still pending and those already processed, the report has an
    entry exactly for the processed files that could be opened, and its
    keys are in increasing order. *)
Definition pool_invariant `{ABI} (fs : filesystem) (expected : list string)
    (st : pool_state) : Prop :=
  exists processed,
    pending_all st ++ processed ≡ₚ expected
    /\ (forall name, name ∈ processed ->
          map_find name (report st) = recomputed_checksum <$> fs name)
    /\ (forall name, name ∉ processed -> map_find name (report st) = None)
    /\ StronglySorted string_lt (map fst (report st)).

(** ** Concrete environments *)

(** A worker environment in which everything succeeds. *)
Definition env_ok : worker_env :=
  {| open_ok := true; heap_garbage := []; malloc_ok := true;
     distrib := fun k i => Z.of_nat (7 * k + i);
     write_ret := fun _ => Written BUFFER_SIZE |}.

(** A worker environment in which the allocator finds no memory for
    the block to leak. *)
Definition env_no_memory : worker_env :=
  {| open_ok := true; heap_garbage := []; malloc_ok := false;
     distrib := fun k i => Z.of_nat (7 * k + i);
     write_ret := fun _ => Written BUFFER_SIZE |}.

(** A worker environment whose third write transfers only ten bytes. *)
Definition env_short_write : worker_env :=
  {| open_ok := true; heap_garbage := []; malloc_ok := true;
     distrib := fun k i => Z.of_nat (7 * k + i);
     write_ret := fun k => if (k =? 2)%nat then Written 10 else Written BUFFER_SIZE |}.

(** The filesystem that holds the artifact of one worker and nothing
    else. *)
Definition fs_of_worker (w : worker_result) : filesystem :=
  fun name => if String.eqb name (artifact_name w) then artifact w else None.

(** A filesystem with artifacts 1 and 3 only. *)
Definition fs_two_artifacts : filesystem :=
  fun name =>
    if String.eqb name "/tmp/pgo_benchmark_1.dat" then Some [x01; x02; x03]
    else if String.eqb name "/tmp/pgo_benchmark_3.dat" then Some (replicate 1025 x01)
    else None.

(** ** Supervisor (lines 168-225) *)

(** What [fork] returns in the parent; the child side of a successful
    fork runs [run_worker_process] or [run_aggregator_process] and never
    returns to [main]. *)
Inductive fork_result :=
| ForkFailed
| ForkParent (pid : Z).

(** What [waitpid] reports for a child. *)
Inductive wait_result :=
| WaitFailed
| WaitExited (status : Z)
| WaitAbnormal.

(** What a forked child runs. *)
Inductive child :=
| WorkerChild (worker_id : Z) (should_leak : bool)
| AggregatorChild.

Record main_env := {
  fork_ret : nat -> fork_result;
  waitpid_ret : Z -> wait_result
}.

(** What the parent reports, in program order. *)
Inductive main_event :=
| MainPerror (msg : string)
| MainExited (pid : Z) (status : Z)
| MainAbnormal (pid : Z).

Record main_state := {
  child_pids : list Z;
  spawned : list child;
  main_log : list main_event
}.

(** Either [exit(EXIT_FAILURE)] was called, or control goes on. *)
Inductive main_outcome :=
| MainExit (st : main_state)
| MainContinue (st : main_state).

(** The loop of lines 175-187; [i] is the ordinal and also the index of
    the [fork] call. *)
Fixpoint fork_workers (env : main_env) (remaining i : nat) (st : main_state)
  : main_outcome :=
  match remaining with
  | O => MainContinue st
  | S remaining' =>
      match fork_ret env i with
      | ForkFailed =>
          MainExit {| child_pids := child_pids st; spawned := spawned st;
                      main_log := main_log st ++ [MainPerror "Failed to fork worker"] |}
      | ForkParent pid =>
          fork_workers env remaining' (S i)
            {| child_pids := child_pids st ++ [pid];
               spawned := spawned st
                          ++ [WorkerChild (Z.of_nat i) (should_leak_flag (Z.of_nat i))];
               main_log := main_log st |}
      end
  end.

(** The loop of lines 203-213. *)
Fixpoint wait_children (env : main_env) (pids : list Z) (log : list main_event)
  : list main_event :=
  match pids with
  | [] => log
  | pid :: pids' =>
      wait_children env pids'
        (log ++ [match waitpid_ret env pid with
                 | WaitFailed => MainPerror "waitpid failed"
                 | WaitExited status => MainExited pid status
                 | WaitAbnormal => MainAbnormal pid
                 end])
  end.

(** [remove(filename)]: the file is gone afterwards; removing a file
    that does not exist fails without any effect, and the source
    ignores the result. *)
Definition remove_file (name : string) (fs : filesystem) : filesystem :=
  fun n => if String.eqb n name then None else fs n.

Definition summary_path : string := (FILE_PREFIX ++ "summary.txt")%string.

(** Lines 217-221. *)
Definition cleanup (fs : filesystem) : filesystem :=
  remove_file summary_path
    (fold_left (fun fs i => remove_file (FILE_PREFIX ++ to_string (Z.of_nat i) ++ ".dat") fs)
               (seq 0 NUM_WORKER_CHILDREN) fs).

Record main_result := {
  main_status : Z;
  main_final : main_state;
  fs_after : filesystem
}.

(** [main] as the parent process runs it; [fs] is the filesystem the
    cleanup finds. *)
Definition main (env : main_env) (fs : filesystem) : main_result :=
  match fork_workers env NUM_WORKER_CHILDREN 0
          {| child_pids := []; spawned := []; main_log := [] |} with
  | MainExit st => {| main_status := EXIT_FAILURE; main_final := st; fs_after := fs |}
  | MainContinue st =>
      match fork_ret env NUM_WORKER_CHILDREN with
      | ForkFailed =>
          {| main_status := EXIT_FAILURE;
             main_final :=
               {| child_pids := child_pids st; spawned := spawned st;
                  main_log := main_log st ++ [MainPerror "Failed to fork aggregator"] |};
             fs_after := fs |}
      | ForkParent aggregator_pid =>
          let pids := child_pids st ++ [aggregator_pid] in
          {| main_status := 0;
             main_final :=
               {| child_pids := pids;
                  spawned := spawned st ++ [AggregatorChild];
                  main_log := wait_children env pids (main_log st) |};
             fs_after := cleanup fs |}
      end
  end.

(** ** Further reference functions *)

(** The number of writes, counted from iteration [i], that transfer the
    whole buffer before the first one that does not. *)
Fixpoint writes_done (env : worker_env) (remaining i : nat) : nat :=
  match remaining with
  | O => O
  | S remaining' =>
      if full_write (write_ret env i) then S (writes_done env remaining' (S i)) else O
  end.

(** The filesystem left by workers [0 .. n-1] that ran to their end on
    an otherwise empty directory. *)
Definition fs_after_workers `{ABI} (envs : nat -> worker_env) (n : nat) : filesystem :=
  fun name =>
    match list_find (fun i => artifact_path i = name) (seq 0 n) with
    | Some (_, i) =>
        artifact (run_worker_process (envs i) (Z.of_nat i)
                    (should_leak_flag (Z.of_nat i)))
    | None => None
    end.

(** The report entry a task leaves for [name] when it starts from the
    report [m]. *)
Definition task_lookup `{ABI} (fs : filesystem) (files : list string) (m : summary)
    (name : string) : option Z :=
  if bool_decide (name ∈ files) then
    match fs name with
    | Some contents => Some (recomputed_checksum contents)
    | None => map_find name m
    end
  else map_find name m.

(** The number of positions below [n] that round-robin gives to thread
    [t] out of [nthreads]. *)
Definition share (n nthreads t : nat) : nat :=
  (n / nthreads + (if t <? n mod nthreads then 1 else 0))%nat.

(** The process identifier a successful fork hands to the parent. *)
Definition fork_pid (r : fork_result) : Z :=
  match r with
  | ForkParent pid => pid
  | ForkFailed => -1
  end.

(** What the parent reports after waiting for [pid]. *)
Definition wait_report (env : main_env) (pid : Z) : main_event :=
  match waitpid_ret env pid with
  | WaitFailed => MainPerror "waitpid failed"
  | WaitExited status => MainExited pid status
  | WaitAbnormal => MainAbnormal pid
  end.

(** A parent in which every fork succeeds and the wait for child 102
    fails. *)
Definition main_env_ok : main_env :=
  {| fork_ret := fun k => ForkParent (100 + Z.of_nat k);
     waitpid_ret := fun pid => if pid =? 102 then WaitFailed else WaitExited 0 |}.

(** A parent whose third fork fails. *)
Definition main_env_fork_fails : main_env :=
  {| fork_ret := fun k => if (k =? 2)%nat then ForkFailed else ForkParent (100 + Z.of_nat k);
     waitpid_ret := fun _ => WaitExited 0 |}.

(** A filesystem on which no artifact can be opened. *)
Definition fs_empty : filesystem := fun _ => None.

(** * Properties *)

(** ** Facts about the checksum *)

Lemma u32_range z : 0 <= u32 z < 2 ^ 32.
Proof. unfold u32. apply Z.mod_pos_bound. lia. Qed.

Lemma u32_small z : 0 <= z < 2 ^ 32 -> u32 z = z.
Proof. unfold u32. apply Z.mod_small. Qed.

Lemma u32_idemp z : u32 (u32 z) = u32 z.
Proof. unfold u32. apply Z.mod_mod. lia. Qed.

Lemma u32_add_l a b : u32 (u32 a + b) = u32 (a + b).
Proof. unfold u32. apply Zplus_mod_idemp_l. Qed.

Lemma u32_add_r a b : u32 (a + u32 b) = u32 (a + b).
Proof. unfold u32. apply Zplus_mod_idemp_r. Qed.

Lemma u32_mul_l a b : u32 (u32 a * b) = u32 (a * b).
Proof. unfold u32. apply Zmult_mod_idemp_l. Qed.

Lemma u32_inner a x p f : u32 (a + (u32 x * p + f)) = u32 (a + (x * p + f)).
Proof.
  rewrite <- u32_add_r, <- (u32_add_l (u32 x * p)), u32_mul_l, u32_add_l.
  by rewrite u32_add_r.
Qed.

Lemma byte_val_range b : 0 <= byte_val b <= 255.
Proof. destruct b; unfold byte_val; simpl; lia. Qed.

Lemma char_to_int_unsigned (b : byte) :
  @char_to_int abi_unsigned_char b = byte_val b.
Proof. reflexivity. Qed.

Lemma char_to_int_signed (b : byte) :
  @char_to_int abi_signed_char b
  = if 128 <=? byte_val b then byte_val b - 256 else byte_val b.
Proof. reflexivity. Qed.

Lemma char_to_int_range `{ABI} b : -128 <= char_to_int b <= 255.
Proof.
  unfold char_to_int. pose proof (byte_val_range b).
  destruct char_signed; simpl; [destruct (Z.leb_spec 128 (byte_val b))|]; lia.
Qed.

Lemma checksum_step_33 `{ABI} c b :
  checksum_step c b = (c * 33 + char_to_int b) mod 2 ^ 32.
Proof.
  unfold checksum_step. rewrite Z.shiftl_mul_pow2 by lia.
  rewrite u32_add_r, u32_add_l, <- Z.add_assoc, u32_add_l.
  unfold u32. change (2 ^ 5) with 32. f_equal. lia.
Qed.

Lemma checksum_step_range `{ABI} c b : 0 <= checksum_step c b < 2 ^ 32.
Proof. apply u32_range. Qed.

Lemma fold_checksum_range `{ABI} l c :
  0 <= c < 2 ^ 32 -> 0 <= fold_left checksum_step l c < 2 ^ 32.
Proof.
  revert c. induction l as [|b l IH]; intros c Hc; simpl; [done|].
  apply IH, checksum_step_range.
Qed.

Lemma calculate_checksum_range `{ABI} buffer size :
  0 <= calculate_checksum buffer size < 2 ^ 32.
Proof. apply fold_checksum_range. lia. Qed.

Lemma fold_checksum_33 `{ABI} l c :
  fold_left checksum_step l c
  = fold_left (fun c b => (c * 33 + char_to_int b) mod 2 ^ 32) l c.
Proof.
  revert c. induction l as [|b l IH]; intros c; simpl; [done|].
  by rewrite checksum_step_33, IH.
Qed.

(** Only the first [size] bytes of the buffer are read. *)
Lemma calculate_checksum_take `{ABI} buffer size :
  calculate_checksum buffer size
  = calculate_checksum (take size buffer) (length (take size buffer)).
Proof. unfold calculate_checksum. by rewrite firstn_all. Qed.

Lemma calculate_checksum_app_stale `{ABI} chunk stale :
  calculate_checksum (chunk ++ stale) (length chunk)
  = calculate_checksum chunk (length chunk).
Proof.
  unfold calculate_checksum. by rewrite take_app_length, firstn_all.
Qed.

(** Horner form: feeding [l] to an accumulator [c] multiplies [c] by
    [33 ^ |l|] and adds the checksum of [l] alone. *)
Lemma fold_checksum_shift `{ABI} l c :
  0 <= c < 2 ^ 32 ->
  fold_left checksum_step l c
  = u32 (c * 33 ^ Z.of_nat (length l) + fold_left checksum_step l 0).
Proof.
  intros Hc. revert c Hc. induction l as [|b l IH]; intros c Hc.
  - simpl. rewrite Z.mul_1_r, Z.add_0_r. by rewrite u32_small.
  - cbn [fold_left length]. rewrite IH by apply checksum_step_range.
    rewrite (IH (checksum_step 0 b)) by apply checksum_step_range.
    rewrite u32_add_r, Nat2Z.inj_succ, Z.pow_succ_r by lia.
    rewrite !checksum_step_33. fold (u32 (c * 33 + char_to_int b)).
    fold (u32 (0 * 33 + char_to_int b)).
    rewrite <- u32_add_l, u32_mul_l, u32_add_l, u32_inner.
    f_equal. ring.
Qed.

(** ** The checksum against the recurrence of the specification *)

Lemma fold33_char_to_int `{ABI} block :
  calculate_checksum block (length block) = fold33 char_to_int block.
Proof.
  unfold calculate_checksum, fold33. rewrite firstn_all. apply fold_checksum_33.
Qed.

(** C3, as the code has it: on every ABI the checksum function returns
    the left-to-right fold of [checksum' = checksum * 33 + c] modulo
    2^32, where [c] is the value of the byte read through [char]: the
    byte value in [0, 255] where [char] is unsigned, and the
    sign-extended value in [-128, 127] where [char] is signed.  The
    result is a 32-bit unsigned value. *)
Theorem calculate_checksum_is_fold33 (abi : ABI) (block : list byte) :
  @calculate_checksum abi block (length block) = fold33 (@char_to_int abi) block
  /\ @calculate_checksum abi_unsigned_char block (length block) = fold33 byte_val block
  /\ @calculate_checksum abi_signed_char block (length block)
     = fold33 (fun b => if 128 <=? byte_val b then byte_val b - 256 else byte_val b) block
  /\ 0 <= @calculate_checksum abi block (length block) < 2 ^ 32
  /\ Forall (fun b => 0 <= byte_val b <= 255 /\ -128 <= @char_to_int abi b <= 255)
            block.
Proof.
  split; [apply fold33_char_to_int|].
  split; [apply (@fold33_char_to_int abi_unsigned_char)|].
  split; [apply (@fold33_char_to_int abi_signed_char)|].
  split; [apply calculate_checksum_range|].
  apply Forall_forall. intros b _.
  split; [apply byte_val_range|apply char_to_int_range].
Qed.

(** C3 as stated fails where [char] is signed: the single byte 0xFF is
    folded as -1, giving 4294967295 and not 255. *)
Lemma calculate_checksum_signed_byte :
  @calculate_checksum abi_signed_char [xff] 1 = 4294967295
  /\ fold33 byte_val [xff] = 255
  /\ @calculate_checksum abi_signed_char [xff] (length [xff]) <> fold33 byte_val [xff].
Proof. repeat split. vm_compute. discriminate. Qed.

(** ** Splitting a file into chunks *)

Lemma BUFFER_SIZE_pos : (0 < BUFFER_SIZE)%nat.
Proof. unfold BUFFER_SIZE. lia. Qed.

Section Chunks.
Variable n : nat.
Hypothesis n_pos : (0 < n)%nat.

Lemma mod_sub_chunk (k : nat) : (n <= k)%nat -> ((k - n) mod n = k mod n)%nat.
Proof.
  intros Hk. replace k with ((k - n) + 1 * n)%nat at 2 by lia.
  symmetry. apply Nat.Div0.mod_add.
Qed.

Lemma div_sub_chunk (k : nat) : (n <= k)%nat -> (S ((k - n) / n) = k / n)%nat.
Proof.
  intros Hk. replace k with ((k - n) + 1 * n)%nat at 2 by lia.
  rewrite Nat.div_add by lia. lia.
Qed.

Lemma chunks_concat fuel (l : list byte) :
  concat (full_chunks fuel n l) ++ last_chunk fuel n l = l.
Proof.
  revert l. induction fuel as [|fuel IH]; intros l; [done|].
  cbn [full_chunks last_chunk]. destruct (length l <? n)%nat; [done|].
  cbn [concat]. rewrite <- app_assoc, IH. apply take_drop.
Qed.

Lemma full_chunks_sizes fuel (l : list byte) :
  Forall (fun c => length c = n) (full_chunks fuel n l).
Proof.
  revert l. induction fuel as [|fuel IH]; intros l; [constructor|].
  cbn [full_chunks]. destruct (Nat.ltb_spec (length l) n); constructor; [|apply IH].
  rewrite length_take. lia.
Qed.

Lemma full_chunks_count fuel (l : list byte) :
  (length l < fuel)%nat -> length (full_chunks fuel n l) = (length l / n)%nat.
Proof.
  revert l. induction fuel as [|fuel IH]; intros l Hfuel; [lia|].
  cbn [full_chunks]. destruct (Nat.ltb_spec (length l) n).
  - by rewrite Nat.div_small.
  - cbn [length]. rewrite IH by (rewrite length_drop; lia).
    rewrite length_drop. by apply div_sub_chunk.
Qed.

Lemma last_chunk_size fuel (l : list byte) :
  (length l < fuel)%nat -> length (last_chunk fuel n l) = (length l mod n)%nat.
Proof.
  revert l. induction fuel as [|fuel IH]; intros l Hfuel; [lia|].
  cbn [last_chunk]. destruct (Nat.ltb_spec (length l) n).
  - by rewrite Nat.mod_small.
  - rewrite IH by (rewrite length_drop; lia).
    rewrite length_drop. by apply mod_sub_chunk.
Qed.

Lemma last_chunk_drop fuel (l : list byte) :
  (length l < fuel)%nat ->
  last_chunk fuel n l = drop (length l - length l mod n) l.
Proof.
  revert l. induction fuel as [|fuel IH]; intros l Hfuel; [lia|].
  cbn [last_chunk]. destruct (Nat.ltb_spec (length l) n).
  - rewrite Nat.mod_small by done. by rewrite Nat.sub_diag.
  - rewrite IH by (rewrite length_drop; lia).
    rewrite length_drop, mod_sub_chunk, drop_drop by done.
    assert (length l mod n <= length l - n)%nat.
    { rewrite <- mod_sub_chunk by done. apply Nat.Div0.mod_le. }
    f_equal. lia.
Qed.

(** A file made of whole blocks splits back into these blocks. *)
Lemma full_chunks_concat fuel (blocks : list (list byte)) :
  Forall (fun c => length c = n) blocks ->
  (length (concat blocks) < fuel)%nat ->
  full_chunks fuel n (concat blocks) = blocks
  /\ last_chunk fuel n (concat blocks) = [].
Proof.
  intros Hall. revert fuel. induction Hall as [|b blocks Hb Hall IH]; intros fuel Hfuel.
  - destruct fuel; [done|]. cbn [full_chunks last_chunk concat length].
    destruct (Nat.ltb_spec 0 n); [done|lia].
  - destruct fuel; [lia|]. cbn [concat] in *. rewrite length_app in Hfuel.
    cbn [full_chunks last_chunk]. rewrite length_app.
    destruct (Nat.ltb_spec (length b + length (concat blocks)) n); [lia|].
    rewrite <- Hb, take_app_length, drop_app_length, Hb.
    destruct (IH fuel) as [-> ->]; [lia|done].
Qed.
End Chunks.

Lemma concat_nonempty_chunk c : concat (nonempty_chunk c) = c.
Proof. destruct c; [done|]. cbn [nonempty_chunk concat]. apply app_nil_r. Qed.

Lemma file_chunks_concat contents : concat (file_chunks contents) = contents.
Proof.
  unfold file_chunks. rewrite concat_app, concat_nonempty_chunk.
  apply chunks_concat.
Qed.

Lemma file_chunks_blocks (blocks : list (list byte)) :
  Forall (fun c => length c = BUFFER_SIZE) blocks ->
  file_chunks (concat blocks) = blocks.
Proof.
  intros Hall. unfold file_chunks.
  destruct (full_chunks_concat BUFFER_SIZE BUFFER_SIZE_pos
              (S (length (concat blocks))) blocks Hall) as [-> ->]; [lia|].
  apply app_nil_r.
Qed.

Lemma file_chunks_single block :
  (length block <= BUFFER_SIZE)%nat -> file_chunks block = nonempty_chunk block.
Proof.
  intros Hlen. destruct (Nat.ltb_spec (length block) BUFFER_SIZE) as [Hlt|Hge].
  - unfold file_chunks. cbn [full_chunks last_chunk].
    destruct (Nat.ltb_spec (length block) BUFFER_SIZE); [done|lia].
  - pose proof (file_chunks_blocks [block]) as Hb.
    cbn [concat] in Hb. rewrite app_nil_r in Hb.
    rewrite Hb by (repeat constructor; lia).
    destruct block; [pose proof BUFFER_SIZE_pos; simpl in *; lia|done].
Qed.

(** ** The read loop *)

Opaque BUFFER_SIZE.

Lemma folded_app tr1 tr2 : folded (tr1 ++ tr2) = folded tr1 ++ folded tr2.
Proof.
  induction tr1 as [|e tr1 IH]; [done|].
  destruct e; cbn [folded app]; by rewrite ?IH.
Qed.

Lemma chunked_checksum_fold `{ABI} chunks acc :
  0 <= acc < 2 ^ 32 ->
  fold_left (fun a c => add_checksum a (calculate_checksum c (length c))) chunks acc
  = u32 (acc + sum_Z (map (fun c => calculate_checksum c (length c)) chunks)).
Proof.
  revert acc. induction chunks as [|c chunks IH]; intros acc Hacc.
  - cbn. rewrite Z.add_0_r. by rewrite u32_small.
  - cbn [fold_left map]. rewrite IH by apply u32_range.
    unfold add_checksum. rewrite u32_add_l. f_equal.
    unfold sum_Z. cbn [foldr]. lia.
Qed.

Lemma chunked_checksum_app `{ABI} chunks c :
  chunked_checksum (chunks ++ [c])
  = add_checksum (chunked_checksum chunks) (calculate_checksum c (length c)).
Proof. unfold chunked_checksum. by rewrite fold_left_app. Qed.

Section ReadLoop.
Context `{ABI}.

Let accumulate (acc : Z) (chunks : list (list byte)) : Z :=
  fold_left (fun a c => add_checksum a (calculate_checksum c (length c))) chunks acc.

Lemma read_loop_spec fuel st :
  failbit (rs_stream st) = false ->
  (length (unread (rs_stream st)) < fuel)%nat ->
  exists st' evs,
    read_loop fuel st = Some st'
    /\ failbit (rs_stream st') = true
    /\ gcount (rs_stream st')
       = length (last_chunk fuel BUFFER_SIZE (unread (rs_stream st)))
    /\ take (gcount (rs_stream st')) (rs_buffer st')
       = last_chunk fuel BUFFER_SIZE (unread (rs_stream st))
    /\ rs_events st' = rs_events st ++ evs
    /\ forallb read_or_fold evs = true
    /\ folded evs = full_chunks fuel BUFFER_SIZE (unread (rs_stream st))
    /\ rs_checksum st'
       = accumulate (rs_checksum st)
           (full_chunks fuel BUFFER_SIZE (unread (rs_stream st))).
Proof.
  revert st. induction fuel as [|fuel IH]; intros st Hfail Hfuel; [lia|].
  destruct st as [[l g f] buf acc tr]. cbn in Hfail, Hfuel. subst f.
  cbn [read_loop rs_stream rs_buffer rs_events rs_checksum unread].
  unfold ifstream_read. cbn [failbit unread gcount].
  cbn [full_chunks last_chunk].
  destruct (Nat.ltb_spec (length l) BUFFER_SIZE) as [Hshort|Hlong].
  - rewrite firstn_all2 by lia.
    replace (length l =? BUFFER_SIZE)%nat with false
      by (symmetry; apply Nat.eqb_neq; lia).
    cbn [negb failbit]. eexists _, [EvRead BUFFER_SIZE (length l)].
    split; [reflexivity|]. cbn [rs_stream rs_buffer rs_events rs_checksum gcount failbit].
    repeat split. by rewrite take_app_length.
  - assert (length (take BUFFER_SIZE l) = BUFFER_SIZE) as Htake
        by (rewrite length_take; lia).
    rewrite Htake, Nat.eqb_refl. cbn [negb failbit gcount].
    match goal with
    | |- context [read_loop fuel ?s] =>
        destruct (IH s)
          as (st' & evs & Hrun & Hf & Hg & Hbuf & Hev & Hrf & Hfold & Hsum)
    end.
    { done. }
    { cbn. rewrite length_drop. pose proof BUFFER_SIZE_pos. lia. }
    cbn [rs_stream rs_buffer rs_events rs_checksum unread] in *.
    exists st', (EvRead BUFFER_SIZE BUFFER_SIZE
                 :: EvFold (take BUFFER_SIZE l) :: evs).
    rewrite Hrun. split; [done|]. split; [done|]. split; [done|]. split; [done|].
    split.
    { rewrite Hev, <- !app_assoc. cbn. do 3 f_equal.
      rewrite <- Htake at 1. by rewrite take_app_length. }
    split; [by cbn|]. split; [cbn; by rewrite Hfold|].
    rewrite Hsum. unfold accumulate. cbn [fold_left]. do 2 f_equal.
    rewrite <- (calculate_checksum_app_stale _ (drop BUFFER_SIZE buf)).
    by rewrite Htake.
Qed.
End ReadLoop.

Lemma nonempty_chunk_length c :
  nonempty_chunk c = if (length c =? 0)%nat then [] else [c].
Proof. by destruct c. Qed.

Lemma read_file_trace (abi : ABI) (contents buf : list byte) :
  let size := length contents in
  let r := (size mod BUFFER_SIZE)%nat in
  exists st,
    read_loop (S size)
      {| rs_stream := ifstream_open contents; rs_buffer := buf;
         rs_checksum := 0; rs_events := [] |} = Some st
    /\ read_file contents buf = Some (last_partial_read st)
    /\ folded (rs_events st) = full_chunks (S size) BUFFER_SIZE contents
    /\ length (folded (rs_events st)) = (size / BUFFER_SIZE)%nat
    /\ Forall (fun c => length c = BUFFER_SIZE) (folded (rs_events st))
    /\ failbit (rs_stream st) = true
    /\ gcount (rs_stream st) = r
    /\ folded (rs_events (last_partial_read st))
       = folded (rs_events st)
         ++ (if (r =? 0)%nat then [] else [drop (size - r) contents])
    /\ rs_checksum (last_partial_read st)
       = (if (r =? 0)%nat then rs_checksum st
          else add_checksum (rs_checksum st)
                 (calculate_checksum (drop (size - r) contents) r))
    /\ concat (folded (rs_events (last_partial_read st))) = contents
    /\ rs_checksum (last_partial_read st)
       = chunked_checksum (folded (rs_events (last_partial_read st)))
    /\ rs_checksum (last_partial_read st) = recomputed_checksum contents.
Proof.
  intros size r.
  destruct (read_loop_spec (S size)
              {| rs_stream := ifstream_open contents; rs_buffer := buf;
                 rs_checksum := 0; rs_events := [] |})
    as (st & evs & Hrun & Hf & Hg & Hbuf & Hev & Hrf & Hfold & Hsum);
    [done|cbn; lia|].
  cbn [rs_stream rs_events rs_checksum ifstream_open unread app] in *.
  subst evs. fold size in Hg, Hbuf, Hfold, Hsum.
  assert (length (last_chunk (S size) BUFFER_SIZE contents) = r) as Hr
      by (apply last_chunk_size; [apply BUFFER_SIZE_pos|lia]).
  assert (last_chunk (S size) BUFFER_SIZE contents = drop (size - r) contents) as Hlast
      by (apply last_chunk_drop; [apply BUFFER_SIZE_pos|lia]).
  rewrite Hr in Hg. rewrite Hg, Hlast in Hbuf.
  assert (folded (rs_events (last_partial_read st))
          = folded (rs_events st)
            ++ (if (r =? 0)%nat then [] else [drop (size - r) contents])) as Hfolded.
  { unfold last_partial_read. rewrite Hg.
    destruct r; cbn [Nat.ltb Nat.leb Nat.eqb]; [by rewrite app_nil_r|].
    cbn [rs_events]. by rewrite folded_app, Hbuf. }
  assert (rs_checksum (last_partial_read st)
          = (if (r =? 0)%nat then rs_checksum st
             else add_checksum (rs_checksum st)
                    (calculate_checksum (drop (size - r) contents) r))) as Hck.
  { unfold last_partial_read. rewrite Hg.
    destruct r as [|r']; cbn [Nat.ltb Nat.leb Nat.eqb]; [done|].
    cbn [rs_checksum]. f_equal. rewrite calculate_checksum_take, Hbuf.
    by rewrite <- Hlast, Hr. }
  assert (folded (rs_events (last_partial_read st)) = file_chunks contents) as Hchunks.
  { rewrite Hfolded, Hfold. unfold file_chunks. fold size. f_equal.
    rewrite nonempty_chunk_length, Hr. by rewrite Hlast. }
  assert (rs_checksum (last_partial_read st) = recomputed_checksum contents) as Hrec.
  { rewrite Hck. unfold recomputed_checksum, file_chunks. fold size.
    rewrite nonempty_chunk_length, Hr, Hsum.
    destruct (r =? 0)%nat eqn:E; [by rewrite app_nil_r|].
    rewrite chunked_checksum_app. unfold chunked_checksum. f_equal.
    rewrite Hlast. f_equal. by rewrite <- Hlast. }
  exists st. unfold read_file. fold size. rewrite Hrun. cbn [mbind option_bind].
  split; [done|]. split; [done|]. split; [done|].
  split; [rewrite Hfold; apply full_chunks_count; [apply BUFFER_SIZE_pos|lia]|].
  split; [rewrite Hfold; apply full_chunks_sizes, BUFFER_SIZE_pos|].
  split; [done|]. split; [done|]. split; [done|]. split; [done|].
  split; [rewrite Hchunks; apply file_chunks_concat|].
  split; [by rewrite Hchunks|done].
Qed.

(** C9: for every opened artifact, whatever its size, the read loop
    terminates and folds each byte exactly once.  The loop folds the
    [size / BUFFER_SIZE] whole chunks; the read that ends it fails with a
    byte count of [size mod BUFFER_SIZE]; the trailing branch adds
    nothing when that count is zero and otherwise folds exactly the last
    [size mod BUFFER_SIZE] bytes.  The folded blocks, in order, make up
    the file, and the checksum is the sum, modulo [2^32], of the
    checksums [calculate_checksum] gives for each of them. *)
Theorem read_file_folds_every_byte_once (abi : ABI) (contents buf : list byte) :
  let size := length contents in
  let r := (size mod BUFFER_SIZE)%nat in
  exists st,
    read_loop (S size)
      {| rs_stream := ifstream_open contents; rs_buffer := buf;
         rs_checksum := 0; rs_events := [] |} = Some st
    /\ read_file contents buf = Some (last_partial_read st)
    /\ folded (rs_events st) = full_chunks (S size) BUFFER_SIZE contents
    /\ length (folded (rs_events st)) = (size / BUFFER_SIZE)%nat
    /\ Forall (fun c => length c = BUFFER_SIZE) (folded (rs_events st))
    /\ failbit (rs_stream st) = true
    /\ gcount (rs_stream st) = r
    /\ folded (rs_events (last_partial_read st))
       = folded (rs_events st)
         ++ (if (r =? 0)%nat then [] else [drop (size - r) contents])
    /\ rs_checksum (last_partial_read st)
       = (if (r =? 0)%nat then rs_checksum st
          else add_checksum (rs_checksum st)
                 (calculate_checksum (drop (size - r) contents) r))
    /\ concat (folded (rs_events (last_partial_read st))) = contents
    /\ rs_checksum (last_partial_read st)
       = chunked_checksum (folded (rs_events (last_partial_read st)))
    /\ rs_checksum (last_partial_read st) = recomputed_checksum contents
    /\ rs_checksum (last_partial_read st)
       = u32 (sum_Z (map (fun c => calculate_checksum c (length c))
                       (folded (rs_events (last_partial_read st)))))
    /\ rs_checksum st
       = u32 (sum_Z (map (fun c => calculate_checksum c (length c))
                       (folded (rs_events st)))).
Proof.
  intros size r.
  destruct (read_file_trace abi contents buf)
    as (st & H1 & H2 & H3 & H4 & H5 & H6 & H7 & H8 & H9 & H10 & H11 & H12).
  exists st. repeat (split; [assumption|]).
  assert (forall chunks,
            chunked_checksum chunks
            = u32 (sum_Z (map (fun c => calculate_checksum c (length c)) chunks)))
    as Hsum.
  { intros chunks. unfold chunked_checksum. by rewrite chunked_checksum_fold by lia. }
  split; [by rewrite H11, Hsum|].
  destruct (read_loop_spec (S (length contents))
              {| rs_stream := ifstream_open contents; rs_buffer := buf;
                 rs_checksum := 0; rs_events := [] |})
    as (st' & evs & Hrun & _ & _ & _ & Hev & _ & Hfold & Hck);
    [done|cbn; lia|].
  fold size in H1. unfold size in H1. rewrite H1 in Hrun. injection Hrun as <-.
  cbn [rs_stream rs_events rs_checksum ifstream_open unread app] in *.
  rewrite Hck, H3. apply Hsum.
Qed.

(** The artifact made of 1024 bytes 01 followed by the bytes 02 03: the
    loop folds the block of 1024 bytes, the trailing branch folds the
    two bytes left, and the checksum is the sum of the two block
    checksums. *)
Lemma read_file_folds_every_byte_once_witness :
  exists st,
    @read_file abi_signed_char (replicate 1024 x01 ++ [x02; x03])
      (replicate 1024 x00) = Some st
    /\ folded (rs_events st) = [replicate 1024 x01; [x02; x03]]
    /\ @calculate_checksum abi_signed_char (replicate 1024 x01) 1024 = 3408905216
    /\ @calculate_checksum abi_signed_char [x02; x03] 2 = 69
    /\ rs_checksum st = 3408905285.
Proof.
  destruct (read_file_folds_every_byte_once abi_signed_char
              (replicate 1024 x01 ++ [x02; x03]) (replicate 1024 x00))
    as (st & _ & Hread & Hfull & _ & _ & _ & _ & Hfolded & _ & _ & _ & _ & Hsum & _).
  eexists. split; [exact Hread|].
  rewrite Hsum, Hfolded, Hfull. repeat split; vm_compute; reflexivity.
Defined.

(** ** One pass against chunks *)

Lemma calculate_checksum_nil `{ABI} : calculate_checksum [] 0 = 0.
Proof. reflexivity. Qed.

Lemma add_checksum_0_r acc : 0 <= acc < 2 ^ 32 -> add_checksum acc 0 = acc.
Proof. intros Hacc. unfold add_checksum. rewrite Z.add_0_r. by apply u32_small. Qed.

Lemma chunked_checksum_range `{ABI} chunks : 0 <= chunked_checksum chunks < 2 ^ 32.
Proof.
  unfold chunked_checksum. rewrite chunked_checksum_fold by lia. apply u32_range.
Qed.

Lemma chunked_checksum_sum `{ABI} chunks :
  chunked_checksum chunks
  = u32 (sum_Z (map (fun c => calculate_checksum c (length c)) chunks)).
Proof. unfold chunked_checksum. by rewrite chunked_checksum_fold by lia. Qed.

Lemma calculate_checksum_app `{ABI} (a b : list byte) :
  calculate_checksum (a ++ b) (length (a ++ b))
  = u32 (calculate_checksum a (length a) * 33 ^ Z.of_nat (length b)
         + calculate_checksum b (length b)).
Proof.
  unfold calculate_checksum. rewrite !firstn_all, fold_left_app.
  apply fold_checksum_shift, fold_checksum_range. lia.
Qed.

Lemma chunked_checksum_single `{ABI} c :
  chunked_checksum [c] = calculate_checksum c (length c).
Proof.
  unfold chunked_checksum. cbn [fold_left]. unfold add_checksum.
  rewrite Z.add_0_l. apply u32_small, calculate_checksum_range.
Qed.

Lemma chunked_checksum_nonempty `{ABI} chunks :
  chunked_checksum chunks
  = chunked_checksum (filter (fun c => length c <> 0%nat) chunks)
  /\ concat chunks = concat (filter (fun c => length c <> 0%nat) chunks).
Proof.
  induction chunks as [|c chunks [IH1 IH2]] using rev_ind; [done|].
  rewrite filter_app, !concat_app, chunked_checksum_app, IH1, IH2.
  destruct c as [|b c].
  - cbn. rewrite !app_nil_r. split; [|done].
    apply add_checksum_0_r, chunked_checksum_range.
  - rewrite filter_cons_True by done. rewrite filter_nil.
    by rewrite chunked_checksum_app.
Qed.

(** C1, as the code has it: the one-pass checksum of a block equals the
    aggregator's chunked computation for every split with at most one
    non-empty chunk, which is how the read loop splits an artifact of at
    most BUFFER_SIZE bytes.  For other splits the chunked computation is
    the sum modulo 2^32 of the per-chunk checksums, whereas one pass
    over [a ++ b] yields [checksum a * 33 ^ |b| + checksum b] modulo
    2^32. *)
Theorem one_pass_equals_chunked_for_one_chunk
    (abi : ABI) (block : list byte) (chunks : list (list byte)) :
  concat chunks = block ->
  (length (filter (fun c => length c <> 0%nat) chunks) <= 1)%nat ->
  calculate_checksum block (length block) = chunked_checksum chunks
  /\ ((length block <= BUFFER_SIZE)%nat ->
      calculate_checksum block (length block) = recomputed_checksum block)
  /\ (forall split : list (list byte),
        chunked_checksum split
        = u32 (sum_Z (map (fun c => calculate_checksum c (length c)) split)))
  /\ (forall a b : list byte,
        calculate_checksum (a ++ b) (length (a ++ b))
        = u32 (calculate_checksum a (length a) * 33 ^ Z.of_nat (length b)
               + calculate_checksum b (length b))).
Proof.
  intros Hsplit Hone. split; [|split; [|split]].
  - destruct (chunked_checksum_nonempty chunks) as [-> Hcat].
    rewrite <- Hsplit, Hcat.
    destruct (filter _ chunks) as [|c [|c' rest]]; [done| |simpl in Hone; lia].
    cbn [concat]. rewrite app_nil_r. by rewrite chunked_checksum_single.
  - intros Hlen. unfold recomputed_checksum. rewrite file_chunks_single by done.
    destruct block as [|b block]; [done|]. cbn [nonempty_chunk].
    by rewrite chunked_checksum_single.
  - apply chunked_checksum_sum.
  - apply calculate_checksum_app.
Qed.

Lemma one_pass_equals_chunked_for_one_chunk_witness :
  concat [[]; [x01; x02]; []] = [x01; x02]
  /\ (length (filter (fun c : list byte => length c <> 0%nat) [[]; [x01; x02]; []]) <= 1)%nat
  /\ @calculate_checksum abi_signed_char [x01; x02] 2
     = @chunked_checksum abi_signed_char [[]; [x01; x02]; []].
Proof.
  split; [reflexivity|]. split; [vm_compute; lia|].
  refine (proj1 (one_pass_equals_chunked_for_one_chunk abi_signed_char [x01; x02]
                   [[]; [x01; x02]; []] _ _)); [reflexivity|vm_compute; lia].
Defined.

(** C1 as stated fails: splitting the two-byte block 01 01 into two
    one-byte chunks gives 1 + 1 = 2, while one pass gives 33 + 1 = 34;
    and for a file of 1025 bytes the read loop's result differs from the
    one-pass checksum of the same bytes. *)
Lemma one_pass_differs_from_chunked :
  concat [[x01]; [x01]] = [x01; x01]
  /\ @calculate_checksum abi_signed_char [x01; x01] 2 = 34
  /\ @chunked_checksum abi_signed_char [[x01]; [x01]] = 2
  /\ @calculate_checksum abi_unsigned_char [x01; x01] 2 = 34
  /\ @chunked_checksum abi_unsigned_char [[x01]; [x01]] = 2
  /\ @calculate_checksum abi_signed_char [x01; x01] (length [x01; x01])
     <> @chunked_checksum abi_signed_char [[x01]; [x01]]
  /\ option_map rs_checksum (@read_file abi_signed_char (replicate 1025 x01) [])
     = Some 3408905217
  /\ @calculate_checksum abi_signed_char (replicate 1025 x01) 1025 = 824722433.
Proof. repeat split; try (vm_compute; reflexivity). vm_compute. discriminate. Qed.

(** ** The worker's write loop *)

Lemma generate_random_data_take draw buf size :
  take size (generate_random_data draw buf size)
  = map (fun i => static_cast_char (draw i)) (seq 0 size).
Proof.
  unfold generate_random_data.
  rewrite take_app_length'; [done|]. by rewrite length_map, length_seq.
Qed.

Lemma block_of_length env k : length (block_of env k) = BUFFER_SIZE.
Proof. unfold block_of. by rewrite length_map, length_seq. Qed.

Section WriteLoop.
Context `{ABI}.
Variable env : worker_env.

Let accumulate (acc : Z) (chunks : list (list byte)) : Z :=
  fold_left (fun a c => add_checksum a (calculate_checksum c (length c))) chunks acc.

Lemma write_step_full remaining i st :
  full_write (write_ret env i) = true ->
  exists buf,
    write_loop env (S remaining) i st
    = write_loop env remaining (S i)
        {| file := file st ++ block_of env i; data_buffer := buf;
           total_checksum :=
             add_checksum (total_checksum st)
               (calculate_checksum (block_of env i) (length (block_of env i)));
           diagnostics := diagnostics st |}.
Proof.
  intros Hfull. cbn [write_loop].
  set (buf := generate_random_data _ _ _). exists buf.
  assert (take BUFFER_SIZE buf = block_of env i) as Hbuf
      by apply generate_random_data_take.
  destruct (write_ret env i) as [|n]; [done|]. cbn in Hfull.
  apply Nat.leb_le in Hfull. cbn [sys_write].
  rewrite Nat.min_r by lia. rewrite Z.eqb_refl. cbn [negb].
  rewrite (calculate_checksum_take buf BUFFER_SIZE), Hbuf. reflexivity.
Qed.

Lemma write_step_short remaining i st :
  full_write (write_ret env i) = false ->
  exists buf,
    write_loop env (S remaining) i st
    = {| file := file st ++ partial_block env i; data_buffer := buf;
         total_checksum := total_checksum st;
         diagnostics :=
           diagnostics st ++ ["Worker failed to write all bytes"%string] |}.
Proof.
  intros Hshort. cbn [write_loop]. unfold partial_block.
  set (buf := generate_random_data _ _ _). exists buf.
  assert (take BUFFER_SIZE buf = block_of env i) as Hbuf
      by apply generate_random_data_take.
  destruct (write_ret env i) as [|n]; cbn [sys_write].
  - cbn. by rewrite app_nil_r.
  - cbn in Hshort. apply Nat.leb_gt in Hshort.
    rewrite Nat.min_l by lia.
    replace (Z.of_nat n =? Z.of_nat BUFFER_SIZE) with false
      by (symmetry; apply Z.eqb_neq; lia).
    cbn [negb]. rewrite <- Hbuf, take_take, Nat.min_l by lia. done.
Qed.

Lemma write_loop_full remaining i st :
  (forall k, (i <= k < i + remaining)%nat -> full_write (write_ret env k) = true) ->
  let blocks := map (block_of env) (seq i remaining) in
  file (write_loop env remaining i st) = file st ++ concat blocks
  /\ total_checksum (write_loop env remaining i st)
     = accumulate (total_checksum st) blocks
  /\ diagnostics (write_loop env remaining i st) = diagnostics st.
Proof.
  revert i st. induction remaining as [|remaining IH]; intros i st Hfull.
  - cbn. by rewrite app_nil_r.
  - destruct (write_step_full remaining i st) as [buf ->]; [apply Hfull; lia|].
    destruct (IH (S i) {| file := file st ++ block_of env i; data_buffer := buf;
           total_checksum :=
             add_checksum (total_checksum st)
               (calculate_checksum (block_of env i) (length (block_of env i)));
           diagnostics := diagnostics st |}) as (Hf & Ht & Hd).
    { intros k Hk. apply Hfull. lia. }
    cbn [file total_checksum diagnostics] in *.
    cbn [seq map concat]. rewrite Hf, Ht, Hd, <- app_assoc. done.
Qed.

Lemma write_loop_short k remaining i st :
  (k < remaining)%nat ->
  (forall j, (i <= j < i + k)%nat -> full_write (write_ret env j) = true) ->
  full_write (write_ret env (i + k)) = false ->
  let blocks := map (block_of env) (seq i k) in
  file (write_loop env remaining i st)
  = file st ++ concat blocks ++ partial_block env (i + k)
  /\ total_checksum (write_loop env remaining i st)
     = accumulate (total_checksum st) blocks
  /\ diagnostics (write_loop env remaining i st)
     = diagnostics st ++ ["Worker failed to write all bytes"%string].
Proof.
  revert remaining i st. induction k as [|k IH]; intros remaining i st Hk Hfull Hshort.
  - destruct remaining as [|remaining]; [lia|].
    rewrite Nat.add_0_r in Hshort.
    destruct (write_step_short remaining i st Hshort) as [buf ->].
    cbn. by rewrite Nat.add_0_r.
  - destruct remaining as [|remaining]; [lia|].
    destruct (write_step_full remaining i st) as [buf ->]; [apply Hfull; lia|].
    destruct (IH remaining (S i)
                {| file := file st ++ block_of env i; data_buffer := buf;
           total_checksum :=
             add_checksum (total_checksum st)
               (calculate_checksum (block_of env i) (length (block_of env i)));
           diagnostics := diagnostics st |}) as (Hf & Ht & Hd).
    { lia. }
    { intros j Hj. apply Hfull. lia. }
    { by replace (S i + k)%nat with (i + S k)%nat by lia. }
    cbn [file total_checksum diagnostics] in *.
    cbn [seq map concat]. rewrite Hf, Ht, Hd, <- !app_assoc.
    by replace (S i + k)%nat with (i + S k)%nat by lia.
Qed.
End WriteLoop.

Lemma read_file_checksum `{ABI} contents buf :
  exists st, read_file contents buf = Some st
             /\ rs_checksum st = recomputed_checksum contents.
Proof.
  destruct (read_file_trace _ contents buf) as (st & _ & Hread & Hrest).
  exists (last_partial_read st). split; [done|]. apply Hrest.
Qed.

Lemma loop_body_opened `{ABI} (fs : filesystem) thread_id filename buf m contents :
  fs filename = Some contents ->
  exists buf' evs,
    loop_body fs thread_id filename buf m
    = Some (buf', map_assign filename (recomputed_checksum contents) m, evs).
Proof.
  intros Hfs. unfold loop_body. rewrite Hfs.
  destruct (read_file_checksum contents buf) as (st & -> & <-).
  cbn [mbind option_bind]. eauto.
Qed.

Lemma blocks_length env i k :
  length (concat (map (block_of env) (seq i k))) = (k * BUFFER_SIZE)%nat.
Proof.
  revert i. induction k as [|k IH]; intros i; [done|].
  cbn [seq map concat]. rewrite length_app, IH, block_of_length. lia.
Qed.

Lemma blocks_sizes env i k :
  Forall (fun c => length c = BUFFER_SIZE) (map (block_of env) (seq i k)).
Proof. apply Forall_map, Forall_forall. intros. apply block_of_length. Qed.

Opaque WRITES_PER_WORKER.

(** C4: when the artifact is opened and every one of the
    WRITES_PER_WORKER writes transfers the whole buffer, the artifact
    holds WRITES_PER_WORKER * BUFFER_SIZE bytes, and an aggregator task
    that finds exactly these bytes on disk records for the artifact the
    checksum the worker accumulated while writing it. *)
Theorem aggregator_recomputes_worker_checksum
    (abi : ABI) (env : worker_env) (worker_id : Z) (should_leak : bool)
    (fs : filesystem) (thread_id : nat) (buf : list byte) (m : summary) :
  open_ok env = true ->
  (forall k, (k < WRITES_PER_WORKER)%nat -> full_write (write_ret env k) = true) ->
  fs (artifact_name (run_worker_process env worker_id should_leak))
  = artifact (run_worker_process env worker_id should_leak) ->
  exists contents buf' evs,
    artifact (run_worker_process env worker_id should_leak) = Some contents
    /\ length contents = (WRITES_PER_WORKER * BUFFER_SIZE)%nat
    /\ worker_diagnostics (run_worker_process env worker_id should_leak) = []
    /\ recomputed_checksum contents
       = reported_checksum (run_worker_process env worker_id should_leak)
    /\ loop_body fs thread_id
         (artifact_name (run_worker_process env worker_id should_leak)) buf m
       = Some (buf',
               map_assign
                 (artifact_name (run_worker_process env worker_id should_leak))
                 (reported_checksum (run_worker_process env worker_id should_leak)) m,
               evs).
Proof.
  intros Hopen Hfull. unfold run_worker_process. rewrite Hopen.
  cbn [negb artifact_name artifact reported_checksum worker_diagnostics].
  set (st0 := {| file := []; data_buffer := heap_garbage env;
                 total_checksum := 0; diagnostics := [] |}).
  destruct (write_loop_full env WRITES_PER_WORKER 0 st0) as (Hf & Ht & Hd).
  { intros k Hk. apply Hfull. lia. }
  cbn [file total_checksum diagnostics st0 app] in Hf, Ht, Hd.
  intros Hfs.
  assert (recomputed_checksum (file (write_loop env WRITES_PER_WORKER 0 st0))
          = total_checksum (write_loop env WRITES_PER_WORKER 0 st0)) as Hsame.
  { rewrite Hf, Ht. unfold recomputed_checksum.
    by rewrite file_chunks_blocks by apply blocks_sizes. }
  destruct (loop_body_opened fs thread_id _ buf m _ Hfs) as (buf' & evs & Hbody).
  exists (file (write_loop env WRITES_PER_WORKER 0 st0)), buf', evs.
  split; [done|]. split; [rewrite Hf; apply blocks_length|].
  split; [done|]. split; [done|]. by rewrite Hbody, Hsame.
Qed.

Lemma aggregator_recomputes_worker_checksum_witness :
  open_ok env_ok = true
  /\ (forall k, (k < WRITES_PER_WORKER)%nat -> full_write (write_ret env_ok k) = true)
  /\ exists contents,
       artifact (@run_worker_process abi_signed_char env_ok 3 true) = Some contents
       /\ @recomputed_checksum abi_signed_char contents
          = reported_checksum (@run_worker_process abi_signed_char env_ok 3 true).
Proof.
  split; [reflexivity|]. split; [intros k _; vm_compute; reflexivity|].
  destruct (aggregator_recomputes_worker_checksum abi_signed_char env_ok 3 true
              (fs_of_worker (@run_worker_process abi_signed_char env_ok 3 true))
              0%nat [] [])
    as (contents & _ & _ & Hart & _ & _ & Hsame & _).
  - reflexivity.
  - intros k _. vm_compute. reflexivity.
  - unfold fs_of_worker. rewrite String.eqb_refl. reflexivity.
  - exists contents. split; assumption.
Defined.

(** ** Exit status of the worker *)

Lemma int32_small (z : Z) : - 2 ^ 31 <= z < 2 ^ 31 -> int32 z = z.
Proof. intros Hz. unfold int32. rewrite Z.mod_small; lia. Qed.

Lemma leak_message_bytes :
  length (list_byte_of_string leak_message ++ [x00]) = 34%nat.
Proof. reflexivity. Qed.

Lemma strcpy_leak_message (dest : list byte) :
  (34 <= length dest)%nat ->
  strcpy dest leak_message
  = Some ((list_byte_of_string leak_message ++ [x00]) ++ drop 34 dest).
Proof.
  intros Hlen. unfold strcpy. rewrite leak_message_bytes.
  destruct (Nat.leb_spec 34 (length dest)); [done|lia].
Qed.

Lemma malloc_served (n : Z) :
  0 <= n < 2 ^ 31 -> malloc true n = Some (replicate (Z.to_nat n) x00).
Proof.
  intros Hn. unfold malloc, PTRDIFF_MAX. cbn [andb].
  destruct (Z.leb_spec n (2 ^ 63 - 1)); [done|lia].
Qed.

Lemma malloc_refused (available : bool) (n : Z) :
  available = false \/ 2 ^ 63 <= n -> malloc available n = None.
Proof.
  intros [->|Hn]; [done|]. unfold malloc, PTRDIFF_MAX.
  destruct (Z.leb_spec n (2 ^ 63 - 1)); [lia|by destruct available].
Qed.

Lemma size_t_of_negative_int (z : Z) :
  - 2 ^ 31 <= z < 0 -> size_t_of_int z = 2 ^ 64 + z.
Proof.
  intros Hz. unfold size_t_of_int. symmetry. apply (Z.mod_unique _ _ (-1)); lia.
Qed.

Lemma size_t_of_nonnegative_int (z : Z) :
  0 <= z < 2 ^ 31 -> size_t_of_int z = z.
Proof. intros Hz. unfold size_t_of_int. apply Z.mod_small. lia. Qed.

(** The [int] size of the block to leak is never between 0 and 63. *)
Lemma leak_size_shape (worker_id : Z) :
  let size := int32 (128 * worker_id + 64) in
  - 2 ^ 31 <= size < 2 ^ 31 /\ (0 <= size -> 64 <= size).
Proof.
  intros size. subst size. unfold int32.
  pose proof (Z.mod_pos_bound (128 * worker_id + 64 + 2 ^ 31) (2 ^ 32) ltac:(lia)).
  split; [lia|].
  rewrite Z.mod_eq by lia.
  set (q := (128 * worker_id + 64 + 2 ^ 31) / 2 ^ 32). lia.
Qed.

(** For an ordinal whose allocation size fits in [int], and with memory
    for the block when the worker leaks, the terminal branch ends in
    [exit(EXIT_SUCCESS)], with the block filled when the worker leaks. *)
Lemma terminal_branch_in_range (env : worker_env) (worker_id : Z) (should_leak : bool) :
  0 <= worker_id <= 16777215 ->
  (should_leak = true -> malloc_ok env = true) ->
  terminal_branch env worker_id should_leak
  = (if should_leak then
       Leaked (128 * worker_id + 64)
         ((list_byte_of_string leak_message ++ [x00])
          ++ drop 34 (replicate (Z.to_nat (128 * worker_id + 64)) x00))
     else Freed,
     Exited EXIT_SUCCESS).
Proof.
  intros Hid Hmem. unfold terminal_branch. destruct should_leak; [|done].
  rewrite Hmem, int32_small, size_t_of_nonnegative_int, malloc_served by (done || lia).
  rewrite strcpy_leak_message by (rewrite length_replicate; lia). done.
Qed.

(** For a negative ordinal the size is negative, the request exceeds
    what [malloc] can serve, and the unchecked null pointer kills the
    worker. *)
Lemma terminal_branch_negative (env : worker_env) (worker_id : Z) :
  -16777216 <= worker_id < 0 ->
  terminal_branch env worker_id true
  = (NullBlock (2 ^ 64 + (128 * worker_id + 64)), Killed SIGSEGV).
Proof.
  intros Hid. unfold terminal_branch.
  rewrite int32_small, size_t_of_negative_int by lia.
  by rewrite malloc_refused by (right; lia).
Qed.

(** Without memory for the block the unchecked null pointer kills the
    worker as well. *)
Lemma terminal_branch_no_memory (env : worker_env) (worker_id : Z) :
  malloc_ok env = false ->
  terminal_branch env worker_id true
  = (NullBlock (size_t_of_int (int32 (128 * worker_id + 64))), Killed SIGSEGV).
Proof. intros Hmem. unfold terminal_branch. by rewrite Hmem. Qed.

(** The terminal branch never copies past the end of the block: a
    block that is allocated has at least 64 bytes.  The worker is
    killed exactly when it leaks and the allocation fails, for lack of
    memory or because the [int] size is negative. *)
Lemma terminal_branch_outcome (env : worker_env) (worker_id : Z) (should_leak : bool) :
  snd (terminal_branch env worker_id should_leak)
  = if should_leak
       && negb (malloc_ok env && (0 <=? int32 (128 * worker_id + 64)))
    then Killed SIGSEGV else Exited EXIT_SUCCESS.
Proof.
  unfold terminal_branch. destruct should_leak; [|done]. cbn [andb].
  destruct (leak_size_shape worker_id) as [Hrange Hmin].
  set (size := int32 (128 * worker_id + 64)) in *.
  destruct (malloc_ok env); [|done]. cbn [andb].
  destruct (Z.leb_spec 0 size) as [Hpos|Hneg]; cbn [negb].
  - rewrite size_t_of_nonnegative_int, malloc_served by lia.
    rewrite strcpy_leak_message by (rewrite length_replicate; lia). done.
  - rewrite size_t_of_negative_int by lia.
    by rewrite malloc_refused by (right; lia).
Qed.

Lemma terminal_branch_defined (env : worker_env) (worker_id : Z) (should_leak : bool) :
  snd (terminal_branch env worker_id should_leak) <> Undefined.
Proof.
  rewrite terminal_branch_outcome.
  by destruct (should_leak && negb _).
Qed.






(** The ordinals -3 and 16777217, at which the [int] size of the block
    to leak is negative, and the ordinal 3 without memory for the
    block: the worker closes its artifact and is then killed by
    SIGSEGV. *)
Lemma worker_killed_by_null_block :
  outcome (@run_worker_process abi_signed_char env_short_write (-3) true)
  = Killed SIGSEGV
  /\ heap (@run_worker_process abi_signed_char env_short_write (-3) true)
     = Some (NullBlock (2 ^ 64 - 320))
  /\ terminal_branch env_ok 16777217 true
     = (NullBlock (2 ^ 64 - 2 ^ 31 + 192), Killed SIGSEGV)
  /\ terminal_branch env_no_memory 3 true = (NullBlock 448, Killed SIGSEGV)
  /\ option_map (fun a => Z.of_nat (length a))
       (artifact (@run_worker_process abi_signed_char env_no_memory 3 true))
     = Some 51200.
Proof. repeat split; vm_compute; reflexivity. Qed.

(** ** The leaked allocation *)





(** ** Artifact names *)

Lemma string_length_append (a b : string) :
  String.length (a ++ b)%string = (String.length a + String.length b)%nat.
Proof. induction a as [|c a IH]; cbn; [done|]. by rewrite IH. Qed.

Lemma string_append_assoc (a b c : string) :
  ((a ++ b) ++ c)%string = (a ++ (b ++ c))%string.
Proof. induction a as [|x a IH]; cbn; [done|]. by rewrite IH. Qed.

Lemma string_append_inj_r (p a b : string) :
  (p ++ a)%string = (p ++ b)%string -> a = b.
Proof. induction p as [|c p IH]; cbn; [done|]. intros [= Heq]. by apply IH. Qed.

Lemma string_append_inj_l (s a b : string) :
  (a ++ s)%string = (b ++ s)%string -> a = b.
Proof.
  revert b. induction a as [|c a IH]; intros [|d b] Heq; cbn in Heq.
  - done.
  - apply (f_equal String.length) in Heq. cbn in Heq.
    rewrite string_length_append in Heq. lia.
  - apply (f_equal String.length) in Heq. cbn in Heq.
    rewrite string_length_append in Heq. lia.
  - injection Heq as -> Heq. f_equal. by apply IH.
Qed.

Lemma to_string_inj (a b : Z) : to_string a = to_string b -> a = b.
Proof.
  unfold to_string. intros Heq. apply DecimalZ.to_int_inj.
  apply (f_equal NilEmpty.int_of_string) in Heq.
  rewrite !NilEmpty.isi in Heq. by injection Heq.
Qed.

Lemma artifact_path_inj i j : artifact_path i = artifact_path j -> i = j.
Proof.
  unfold artifact_path. intros Heq.
  apply string_append_inj_r, string_append_inj_l, to_string_inj in Heq. lia.
Qed.

Lemma worker_files_lookup n i :
  (i < n)%nat -> worker_files n !! i = Some (artifact_path i).
Proof.
  intros Hi. unfold worker_files. rewrite list_lookup_fmap, lookup_seq_lt by done.
  reflexivity.
Qed.

Lemma worker_files_length n : length (worker_files n) = n.
Proof. unfold worker_files. by rewrite length_map, length_seq. Qed.

Lemma worker_files_NoDup n : NoDup (worker_files n).
Proof.
  unfold worker_files. apply NoDup_fmap_2_strong; [|apply NoDup_seq].
  intros i j _ _. apply artifact_path_inj.
Qed.

Lemma elem_of_worker_files n name :
  name ∈ worker_files n <-> exists i, (i < n)%nat /\ name = artifact_path i.
Proof.
  unfold worker_files. rewrite list_elem_of_fmap. split.
  - intros (i & -> & Hi). apply elem_of_seq in Hi. exists i. split; [lia|done].
  - intros (i & Hi & ->). exists i. split; [done|]. apply elem_of_seq. lia.
Qed.

(** ** Round-robin partition *)

Section Distribute.
Variable nthreads : nat.
Variable files : list string.
Hypothesis nthreads_pos : (0 < nthreads)%nat.

Let push (work_chunks : list (list string)) (i : nat) : list (list string) :=
  alter (fun chunk => chunk ++ [nth i files EmptyString]) (i mod nthreads)%nat
        work_chunks.

Let positions (t k : nat) : list nat :=
  filter (fun i => (i mod nthreads)%nat = t) (seq 0 k).

Lemma concat_alter_push (chunks : list (list string)) (j : nat) (x : string) :
  (j < length chunks)%nat ->
  concat (alter (fun chunk => chunk ++ [x]) j chunks) ≡ₚ concat chunks ++ [x].
Proof.
  revert j. induction chunks as [|c chunks IH]; intros j Hj; [simpl in Hj; lia|].
  destruct j as [|j]; cbn [alter list_alter concat].
  - rewrite <- !app_assoc. apply Permutation_app_head, Permutation_app_comm.
  - rewrite <- app_assoc. apply Permutation_app_head.
    apply IH. simpl in Hj. lia.
Qed.

Lemma distribute_prefix (k : nat) :
  (k <= length files)%nat ->
  let chunks := fold_left push (seq 0 k) (replicate nthreads []) in
  length chunks = nthreads
  /\ (forall t, (t < nthreads)%nat ->
        chunks !! t
        = Some (map (fun i => nth i files EmptyString) (positions t k)))
  /\ concat chunks ≡ₚ take k files.
Proof.
  induction k as [|k IH]; intros Hk.
  - cbn [seq fold_left]. split; [apply length_replicate|]. split.
    + intros t Ht. by rewrite lookup_replicate_2.
    + rewrite take_0. clear. induction nthreads; [done|]. done.
  - destruct IH as (Hlen & Hlook & Hperm); [lia|].
    rewrite seq_S, fold_left_app. cbn [fold_left Nat.add].
    set (chunks := fold_left push (seq 0 k) (replicate nthreads [])) in *.
    assert (k mod nthreads < nthreads)%nat as Hmod
        by (apply Nat.mod_upper_bound; lia).
    unfold push. split; [by rewrite length_alter|]. split.
    + intros t Ht. unfold positions. rewrite seq_S, filter_app, map_app.
      cbn [Nat.add]. destruct (decide (k mod nthreads = t)%nat) as [Heq|Hne].
      * subst t. rewrite list_lookup_alter_eq, Hlook by done.
        rewrite filter_cons_True, filter_nil by done. done.
      * rewrite list_lookup_alter_ne, Hlook by done.
        rewrite filter_cons_False, filter_nil by done.
        by rewrite app_nil_r.
    + rewrite concat_alter_push by lia. rewrite Hperm.
      destruct (lookup_lt_is_Some_2 files k) as [x Hx]; [lia|].
      rewrite (take_S_r files k x Hx), nth_lookup, Hx. done.
Qed.

Lemma distribute_spec :
  length (distribute nthreads files) = nthreads
  /\ (forall t, (t < nthreads)%nat ->
        distribute nthreads files !! t
        = Some (map (fun i => nth i files EmptyString) (positions t (length files))))
  /\ concat (distribute nthreads files) ≡ₚ files.
Proof.
  destruct (distribute_prefix (length files)) as (Hlen & Hlook & Hperm); [done|].
  rewrite firstn_all in Hperm. done.
Qed.
End Distribute.

Lemma distribute_worker_files (n nthreads t : nat) :
  (0 < nthreads)%nat -> (t < nthreads)%nat ->
  distribute nthreads (worker_files n) !! t
  = Some (map artifact_path
            (filter (fun i => (i mod nthreads)%nat = t) (seq 0 n))).
Proof.
  intros Hpos Ht.
  destruct (distribute_spec nthreads (worker_files n) Hpos) as (_ & Hlook & _).
  rewrite Hlook, worker_files_length by done. f_equal.
  apply map_ext_in. intros i Hi.
  apply list_elem_of_In, list_elem_of_filter in Hi as [_ Hi]. apply elem_of_seq in Hi.
  rewrite nth_lookup, worker_files_lookup by lia. done.
Qed.

Lemma elem_of_distribute_chunk (n nthreads t : nat) (c : list string) (x : string) :
  (0 < nthreads)%nat ->
  distribute nthreads (worker_files n) !! t = Some c ->
  x ∈ c <-> exists i, (i < n)%nat /\ (i mod nthreads)%nat = t /\ x = artifact_path i.
Proof.
  intros Hpos Hc.
  assert (t < nthreads)%nat as Ht.
  { apply lookup_lt_Some in Hc.
    destruct (distribute_spec nthreads (worker_files n) Hpos) as (Hlen & _).
    lia. }
  rewrite distribute_worker_files in Hc by done. injection Hc as <-.
  rewrite list_elem_of_fmap. split.
  - intros (i & -> & Hi). apply list_elem_of_filter in Hi as [Hmod Hi].
    apply elem_of_seq in Hi. exists i. repeat split; [lia|done].
  - intros (i & Hi & Hmod & ->). exists i. split; [done|].
    apply list_elem_of_filter. split; [done|]. apply elem_of_seq. lia.
Qed.

(** C6: for every number of workers and every positive number of
    threads, thread [t] receives exactly the artifacts at the list
    positions [i] with [i mod nthreads = t], in list order; the
    partitions are pairwise disjoint and together hold every expected
    artifact exactly once.  With 5 workers and 3 threads, thread 0
    receives artifacts 0 and 3, thread 1 artifacts 1 and 4, and thread 2
    artifact 2. *)
Theorem round_robin_partition (n nthreads : nat) :
  (0 < nthreads)%nat ->
  length (distribute nthreads (worker_files n)) = nthreads
  /\ (forall t, (t < nthreads)%nat ->
        distribute nthreads (worker_files n) !! t
        = Some (map artifact_path
                  (filter (fun i => (i mod nthreads)%nat = t) (seq 0 n))))
  /\ (forall i, (i < n)%nat ->
        exists c, distribute nthreads (worker_files n) !! (i mod nthreads)%nat = Some c
                  /\ artifact_path i ∈ c)
  /\ (forall i t c, (i < n)%nat ->
        distribute nthreads (worker_files n) !! t = Some c ->
        artifact_path i ∈ c -> t = (i mod nthreads)%nat)
  /\ (forall t1 t2 c1 c2 x, t1 <> t2 ->
        distribute nthreads (worker_files n) !! t1 = Some c1 ->
        distribute nthreads (worker_files n) !! t2 = Some c2 ->
        x ∈ c1 -> x ∉ c2)
  /\ concat (distribute nthreads (worker_files n)) ≡ₚ worker_files n
  /\ NoDup (concat (distribute nthreads (worker_files n)))
  /\ distribute 3 (worker_files 5)
     = [[artifact_path 0; artifact_path 3];
        [artifact_path 1; artifact_path 4];
        [artifact_path 2]]
  /\ distribute NUM_AGGREGATOR_THREADS (worker_files NUM_WORKER_CHILDREN)
     = [["/tmp/pgo_benchmark_0.dat"; "/tmp/pgo_benchmark_3.dat"];
        ["/tmp/pgo_benchmark_1.dat"; "/tmp/pgo_benchmark_4.dat"];
        ["/tmp/pgo_benchmark_2.dat"]]%string.
Proof.
  intros Hpos.
  destruct (distribute_spec nthreads (worker_files n) Hpos) as (Hlen & _ & Hperm).
  split; [done|]. split; [intros; by apply distribute_worker_files|].
  split.
  { intros i Hi.
    assert (i mod nthreads < nthreads)%nat as Hmod
        by (apply Nat.mod_upper_bound; lia).
    eexists. split; [by apply distribute_worker_files|].
    apply list_elem_of_fmap. exists i. split; [done|].
    apply list_elem_of_filter. split; [done|]. apply elem_of_seq. lia. }
  split.
  { intros i t c Hi Hc Hin.
    apply (elem_of_distribute_chunk n nthreads t c _ Hpos Hc) in Hin
      as (j & _ & <- & Heq).
    by rewrite (artifact_path_inj _ _ Heq). }
  split.
  { intros t1 t2 c1 c2 x Hne Hc1 Hc2 Hin1 Hin2.
    apply (elem_of_distribute_chunk n nthreads t1 c1 _ Hpos Hc1) in Hin1
      as (i & _ & <- & ->).
    apply (elem_of_distribute_chunk n nthreads t2 c2 _ Hpos Hc2) in Hin2
      as (j & _ & <- & Heq).
    by rewrite (artifact_path_inj _ _ Heq) in Hne. }
  split; [done|]. split; [rewrite Hperm; apply worker_files_NoDup|].
  split; vm_compute; reflexivity.
Qed.

Lemma round_robin_partition_witness :
  (0 < 3)%nat /\ length (distribute 3 (worker_files 5)) = 3%nat.
Proof.
  split; [lia|]. refine (proj1 (round_robin_partition 5 3 _)). lia.
Defined.

(** ** The ordered map *)

Lemma ascii_compare_lt_trans (a b c : ascii) :
  Ascii.compare a b = Lt -> Ascii.compare b c = Lt -> Ascii.compare a c = Lt.
Proof.
  unfold Ascii.compare. rewrite !N.compare_lt_iff. apply N.lt_trans.
Qed.

Lemma string_compare_refl (s : string) : String.compare s s = Eq.
Proof.
  induction s as [|c s IH]; [done|]. cbn.
  unfold Ascii.compare. by rewrite N.compare_refl.
Qed.

Lemma string_lt_irrefl (s : string) : ~ string_lt s s.
Proof. unfold string_lt. by rewrite string_compare_refl. Qed.

Lemma string_lt_trans (a b c : string) :
  string_lt a b -> string_lt b c -> string_lt a c.
Proof.
  unfold string_lt. revert b c.
  induction a as [|x a IH]; intros [|y b] [|z c]; cbn; try done.
  destruct (Ascii.compare x y) eqn:Hxy; try done;
    destruct (Ascii.compare y z) eqn:Hyz; try done.
  - apply Ascii.compare_eq_iff in Hxy, Hyz. subst.
    unfold Ascii.compare at 1. rewrite N.compare_refl. apply IH.
  - apply Ascii.compare_eq_iff in Hxy. subst. by rewrite Hyz.
  - apply Ascii.compare_eq_iff in Hyz. subst. by rewrite Hxy.
  - by rewrite (ascii_compare_lt_trans x y z).
Qed.

Lemma string_compare_gt_lt (a b : string) :
  String.compare a b = Gt -> string_lt b a.
Proof.
  unfold string_lt. intros Hgt. rewrite String.compare_antisym, Hgt. done.
Qed.

Lemma map_find_assign (k k' : string) (v : Z) (m : summary) :
  map_find k' (map_assign k v m)
  = if String.eqb k' k then Some v else map_find k' m.
Proof.
  induction m as [|[k2 v2] m IH]; [done|]. cbn [map_assign].
  destruct (String.compare k k2) eqn:Hcmp; cbn [map_find].
  - apply String.compare_eq_iff in Hcmp. subst k2.
    by destruct (String.eqb k' k).
  - done.
  - rewrite IH. destruct (String.eqb_spec k' k2) as [->|]; [|done].
    destruct (String.eqb_spec k2 k) as [->|]; [|done].
    by rewrite string_compare_refl in Hcmp.
Qed.

Lemma map_assign_keys (P : string -> Prop) (k : string) (v : Z) (m : summary) :
  P k -> Forall P (map fst m) -> Forall P (map fst (map_assign k v m)).
Proof.
  intros Hk. induction m as [|[k2 v2] m IH]; intros Hm; cbn [map_assign].
  - by repeat constructor.
  - cbn [map fst] in Hm. apply Forall_cons in Hm as [Hk2 Hm].
    destruct (String.compare k k2); cbn [map fst];
      repeat (constructor; try done). by apply IH.
Qed.

Lemma map_assign_sorted (k : string) (v : Z) (m : summary) :
  StronglySorted string_lt (map fst m) ->
  StronglySorted string_lt (map fst (map_assign k v m)).
Proof.
  induction m as [|[k2 v2] m IH]; intros Hm; cbn [map_assign].
  - repeat constructor.
  - cbn [map fst] in Hm. apply StronglySorted_inv in Hm as [Hm Hall].
    destruct (String.compare k k2) eqn:Hcmp; cbn [map fst].
    + apply String.compare_eq_iff in Hcmp. subst k2. by constructor.
    + constructor; [by constructor|]. constructor; [done|].
      eapply Forall_impl; [exact Hall|]. intros k3. by apply string_lt_trans.
    + constructor; [by apply IH|].
      apply map_assign_keys; [by apply string_compare_gt_lt|done].
Qed.

Lemma sorted_keys_NoDup (m : summary) :
  StronglySorted string_lt (map fst m) -> NoDup (map fst m).
Proof.
  induction 1 as [|k ks Hks IH Hall]; constructor; [|done].
  intros Hin. rewrite Forall_forall in Hall.
  by apply (string_lt_irrefl k), Hall.
Qed.

Lemma map_find_elem_of (k : string) (v : Z) (m : summary) :
  NoDup (map fst m) -> map_find k m = Some v <-> (k, v) ∈ m.
Proof.
  induction m as [|[k2 v2] m IH]; intros Hnd; cbn [map_find].
  - split; [done|]. by intros ?%elem_of_nil.
  - cbn [map fst] in Hnd. apply NoDup_cons in Hnd as [Hfresh Hnd].
    rewrite elem_of_cons. destruct (String.eqb_spec k k2) as [->|Hne].
    + split; [intros [= ->]; by left|].
      intros [[= ->]|Hin]; [done|]. destruct Hfresh.
      apply list_elem_of_fmap. by exists (k2, v).
    + rewrite IH by done. split; [by right|]. intros [[= -> ->]|]; done.
Qed.

(** ** The thread pool *)

Lemma pending_all_step (ths : list thread) t th f rest buf :
  ths !! t = Some th -> pending th = f :: rest ->
  f :: concat (map pending (<[t := {| pending := rest; read_buffer := buf |}]> ths))
  ≡ₚ concat (map pending ths).
Proof.
  revert t. induction ths as [|th0 ths IH]; intros t Hth Hpend; [done|].
  destruct t as [|t]; cbn in Hth.
  - injection Hth as ->. cbn. by rewrite Hpend.
  - cbn [insert list_insert map concat]. rewrite <- (IH t Hth Hpend).
    apply Permutation_middle.
Qed.

Lemma all_joined_pending st : all_joined st = true <-> pending_all st = [].
Proof.
  unfold all_joined, pending_all. induction (threads st) as [|th ths IH]; [done|].
  cbn [forallb map concat]. rewrite andb_true_iff, IH.
  destruct (pending th); cbn; [tauto|]. split; [by intros []|done].
Qed.

Lemma pending_all_nonempty st :
  pending_all st <> [] ->
  exists t th f rest, threads st !! t = Some th /\ pending th = f :: rest.
Proof.
  unfold pending_all. induction (threads st) as [|th ths IH]; [done|].
  cbn [map concat]. destruct (pending th) as [|f rest] eqn:Hpend.
  - intros Hne. destruct (IH Hne) as (t & th' & f & rest & Hth & Hp).
    by exists (S t), th', f, rest.
  - intros _. by exists 0%nat, th, f, rest.
Qed.

Section Pool.
Context `{ABI}.
Variable fs : filesystem.

Lemma loop_body_result thread_id filename buf m :
  exists buf' evs,
    loop_body fs thread_id filename buf m
    = Some (buf',
            match fs filename with
            | Some contents => map_assign filename (recomputed_checksum contents) m
            | None => m
            end, evs).
Proof.
  destruct (fs filename) as [contents|] eqn:Hfs.
  - by apply loop_body_opened.
  - unfold loop_body. rewrite Hfs. eauto.
Qed.

Lemma thread_step_pending t st th f rest :
  threads st !! t = Some th -> pending th = f :: rest ->
  exists buf' evs,
    thread_step fs t st
    = Some {| threads := <[t := {| pending := rest; read_buffer := buf' |}]> (threads st);
              report := match fs f with
                        | Some contents =>
                            map_assign f (recomputed_checksum contents) (report st)
                        | None => report st
                        end;
              log := log st ++ map (pair t) evs |}.
Proof.
  intros Hth Hpend. unfold thread_step. rewrite Hth, Hpend.
  destruct (loop_body_result t f (read_buffer th) (report st)) as (buf' & evs & ->).
  cbn [mbind option_bind]. eauto.
Qed.

Lemma thread_step_idle t st :
  (forall th, threads st !! t = Some th -> pending th = []) ->
  thread_step fs t st = Some st.
Proof.
  intros Hidle. unfold thread_step.
  destruct (threads st !! t) as [th|] eqn:Hth; [|done]. by rewrite (Hidle th).
Qed.

Lemma thread_step_invariant expected t st st' :
  pool_invariant fs expected st -> thread_step fs t st = Some st' ->
  pool_invariant fs expected st'.
Proof.
  intros Hinv Hstep.
  destruct (threads st !! t) as [th|] eqn:Hth;
    [|rewrite thread_step_idle in Hstep by (by rewrite Hth);
      by injection Hstep as <-].
  destruct (pending th) as [|f rest] eqn:Hpend;
    [rewrite thread_step_idle in Hstep
       by (intros th'; rewrite Hth; by intros [= <-]);
     by injection Hstep as <-|].
  destruct (thread_step_pending t st th f rest Hth Hpend) as (buf' & evs & Heq).
  rewrite Heq in Hstep. injection Hstep as <-.
  destruct Hinv as (processed & Hperm & Hin & Hout & Hsorted).
  exists (f :: processed). unfold pending_all in *. cbn [threads report].
  split; [|split; [|split]].
  - rewrite <- Hperm, <- Permutation_middle.
    rewrite <- (pending_all_step (threads st) t th f rest buf' Hth Hpend). done.
  - intros name Hname. destruct (String.eqb_spec name f) as [->|Hne].
    + destruct (fs f) as [contents|] eqn:Hfs.
      * by rewrite map_find_assign, String.eqb_refl.
      * destruct (in_dec string_dec f processed) as [Hp|Hp].
        -- apply list_elem_of_In in Hp. rewrite (Hin f Hp), Hfs. done.
        -- rewrite Hout; [done|]. by rewrite list_elem_of_In.
    + apply elem_of_cons in Hname as [->|Hname]; [done|].
      destruct (fs f); [|by apply Hin].
      rewrite map_find_assign. apply String.eqb_neq in Hne. rewrite Hne.
      by apply Hin.
  - intros name Hname. apply not_elem_of_cons in Hname as [Hne Hname].
    destruct (fs f); [|by apply Hout].
    rewrite map_find_assign. apply String.eqb_neq in Hne. rewrite Hne.
    by apply Hout.
  - destruct (fs f); [by apply map_assign_sorted|done].
Qed.

Lemma thread_step_total t st : exists st', thread_step fs t st = Some st'.
Proof.
  destruct (threads st !! t) as [th|] eqn:Hth;
    [|exists st; apply thread_step_idle; by rewrite Hth].
  destruct (pending th) as [|f rest] eqn:Hpend.
  - exists st. apply thread_step_idle. intros th'. rewrite Hth. by intros [= <-].
  - destruct (thread_step_pending t st th f rest Hth Hpend) as (? & ? & ->). eauto.
Qed.

Lemma run_threads_total schedule st :
  exists st', run_threads fs schedule st = Some st'.
Proof.
  revert st. induction schedule as [|t schedule IH]; intros st; [by exists st|].
  cbn [run_threads]. destruct (thread_step_total t st) as [st1 ->].
  cbn [mbind option_bind]. apply IH.
Qed.

Lemma run_threads_invariant expected schedule st st' :
  pool_invariant fs expected st -> run_threads fs schedule st = Some st' ->
  pool_invariant fs expected st'.
Proof.
  revert st. induction schedule as [|t schedule IH]; intros st Hinv Hrun.
  - by injection Hrun as <-.
  - cbn [run_threads] in Hrun.
    destruct (thread_step fs t st) as [st1|] eqn:Hstep; [|done].
    cbn [mbind option_bind] in Hrun.
    eapply IH; [|exact Hrun]. by eapply thread_step_invariant.
Qed.

(** Some schedule lets every thread finish. *)
Lemma run_to_completion k st :
  length (pending_all st) = k ->
  exists schedule st',
    run_threads fs schedule st = Some st' /\ all_joined st' = true.
Proof.
  revert st. induction k as [|k IH]; intros st Hlen.
  - exists [], st. split; [done|]. apply all_joined_pending.
    by apply length_zero_iff_nil.
  - destruct (pending_all_nonempty st) as (t & th & f & rest & Hth & Hpend).
    { intros Hnil. by rewrite Hnil in Hlen. }
    destruct (thread_step_pending t st th f rest Hth Hpend) as (buf' & evs & Hstep).
    match type of Hstep with _ = Some ?s => set (st1 := s) in * end.
    destruct (IH st1) as (schedule & st' & Hrun & Hjoined).
    { pose proof (pending_all_step (threads st) t th f rest buf' Hth Hpend) as Hp.
      apply Permutation_length in Hp. unfold pending_all in *.
      cbn [threads st1 length] in *. lia. }
    exists (t :: schedule), st'. cbn [run_threads]. rewrite Hstep. done.
Qed.

Lemma launch_pending nworkers nthreads stack :
  pending_all (launch nworkers nthreads stack)
  = concat (distribute nthreads (worker_files nworkers)).
Proof.
  unfold pending_all, launch. cbn [threads]. f_equal.
  change (map pending ?l) with (pending <$> l). rewrite fmap_imap.
  rewrite (imap_ext _ (const id)) by done. by rewrite imap_const, list_fmap_id.
Qed.

Lemma launch_invariant nworkers nthreads stack :
  (0 < nthreads)%nat ->
  pool_invariant fs (worker_files nworkers) (launch nworkers nthreads stack).
Proof.
  intros Hpos. exists []. rewrite launch_pending, app_nil_r.
  destruct (distribute_spec nthreads (worker_files nworkers) Hpos) as (_ & _ & Hperm).
  split; [done|]. split; [by intros name ?%elem_of_nil|].
  split; [done|]. constructor.
Qed.
End Pool.

Lemma NUM_AGGREGATOR_THREADS_pos : (0 < NUM_AGGREGATOR_THREADS)%nat.
Proof. unfold NUM_AGGREGATOR_THREADS. lia. Qed.

Lemma aggregator_final_state `{ABI} fs stack schedule st text status :
  run_aggregator_process fs stack schedule = Some (st, text, status) ->
  all_joined st = true
  /\ text = write_summary (report st)
  /\ status = EXIT_SUCCESS
  /\ StronglySorted string_lt (map fst (report st))
  /\ forall name,
       map_find name (report st)
       = if bool_decide (name ∈ worker_files NUM_WORKER_CHILDREN)
         then recomputed_checksum <$> fs name else None.
Proof.
  unfold run_aggregator_process. intros Hrun.
  destruct (run_threads fs schedule _) as [st1|] eqn:Hthreads; [|done].
  cbn [mbind option_bind] in Hrun.
  destruct (all_joined st1) eqn:Hjoined; [|done]. injection Hrun as <- <- <-.
  split; [done|]. split; [done|]. split; [done|].
  eapply run_threads_invariant in Hthreads;
    [|apply launch_invariant, NUM_AGGREGATOR_THREADS_pos].
  destruct Hthreads as (processed & Hperm & Hin & Hout & Hsorted).
  apply all_joined_pending in Hjoined. rewrite Hjoined in Hperm. cbn [app] in Hperm.
  split; [done|]. intros name. case_bool_decide as Hname.
  - apply Hin. by rewrite Hperm.
  - apply Hout. by rewrite Hperm.
Qed.

Lemma some_schedule_joins `{ABI} fs stack :
  exists schedule st text,
    run_aggregator_process fs stack schedule = Some (st, text, EXIT_SUCCESS).
Proof.
  destruct (run_to_completion fs _
              (launch NUM_WORKER_CHILDREN NUM_AGGREGATOR_THREADS stack) eq_refl)
    as (schedule & st & Hrun & Hjoined).
  exists schedule, st, (write_summary (report st)).
  unfold run_aggregator_process. rewrite Hrun. cbn [mbind option_bind].
  by rewrite Hjoined.
Qed.

Lemma report_entries `{ABI} fs stack schedule st text status :
  run_aggregator_process fs stack schedule = Some (st, text, status) ->
  forall name v,
    (name, v) ∈ report st
    <-> name ∈ worker_files NUM_WORKER_CHILDREN
        /\ exists contents, fs name = Some contents
                            /\ v = recomputed_checksum contents.
Proof.
  intros Hrun name v.
  destruct (aggregator_final_state _ _ _ _ _ _ Hrun) as (_ & _ & _ & Hsorted & Hfind).
  rewrite <- map_find_elem_of by by apply sorted_keys_NoDup.
  rewrite Hfind. case_bool_decide as Hname.
  - destruct (fs name) as [contents|]; cbn.
    + split; [intros [= <-]; eauto|]. by intros (_ & c & [= <-] & ->).
    + split; [done|]. by intros (_ & c & ? & _).
  - split; [done|]. by intros [? _].
Qed.

(** C5: once every thread has finished, the report has exactly one
    entry for each expected artifact that could be opened, keyed by its
    name and holding the checksum recomputed from its bytes, and no
    entry for any other name, in particular none for an artifact whose
    open failed.  A failed open changes neither the report nor the read
    buffer and the task goes on with its next file.  Some schedule lets
    every thread finish. *)
Theorem report_has_one_entry_per_opened_artifact
    (abi : ABI) (fs : filesystem) (stack : nat -> list byte)
    (schedule : list nat) (st : pool_state) (text : string) (status : Z) :
  run_aggregator_process fs stack schedule = Some (st, text, status) ->
  all_joined st = true
  /\ NoDup (map fst (report st))
  /\ (forall name v,
        (name, v) ∈ report st
        <-> name ∈ worker_files NUM_WORKER_CHILDREN
            /\ exists contents, fs name = Some contents
                                /\ v = recomputed_checksum contents)
  /\ (forall name, fs name = None ->
        map_find name (report st) = None /\ name ∉ map fst (report st))
  /\ (forall t name buf m, fs name = None ->
        loop_body fs t name buf m
        = Some (buf, m, [EvOpen name false; EvCerr t name]))
  /\ (exists schedule' st' text',
        run_aggregator_process fs stack schedule' = Some (st', text', EXIT_SUCCESS)).
Proof.
  intros Hrun.
  destruct (aggregator_final_state _ _ _ _ _ _ Hrun)
    as (Hjoined & _ & _ & Hsorted & Hfind).
  split; [done|]. split; [by apply sorted_keys_NoDup|].
  split; [by eapply report_entries|]. split; [|split].
  - intros name Hfs. split.
    + rewrite Hfind, Hfs. by case_bool_decide.
    + intros Hin. apply list_elem_of_fmap in Hin as ([k v] & -> & Hin).
      apply (report_entries _ _ _ _ _ _ Hrun) in Hin as (_ & c & Hc & _).
      cbn in Hfs. congruence.
  - intros t name buf m Hfs. unfold loop_body. by rewrite Hfs.
  - apply some_schedule_joins.
Qed.

Lemma report_has_one_entry_per_opened_artifact_witness :
  exists st text status,
    @run_aggregator_process abi_signed_char fs_two_artifacts (fun _ => [])
      [0; 1; 2; 0; 1]%nat = Some (st, text, status)
    /\ all_joined st = true.
Proof.
  eexists _, _, _. split; [vm_compute; reflexivity|].
  refine (proj1 (report_has_one_entry_per_opened_artifact abi_signed_char
                   fs_two_artifacts (fun _ => []) [0; 1; 2; 0; 1]%nat _ _ _ _)).
  vm_compute. reflexivity.
Defined.

(** ** Lock discipline of a task *)

Lemma sections_skip (tr1 tr2 : list event) :
  forallb no_lock tr1 = true ->
  sections_aux None (tr1 ++ tr2) = sections_aux None tr2.
Proof.
  induction tr1 as [|e tr1 IH]; [done|]. cbn [forallb app].
  rewrite andb_true_iff. intros [He Htr1]. destruct e; try done; by apply IH.
Qed.

Lemma read_or_fold_no_lock (evs : list event) :
  forallb read_or_fold evs = true -> forallb no_lock evs = true.
Proof.
  rewrite !forallb_forall. intros Hall e He. specialize (Hall e He). by destruct e.
Qed.

Lemma read_file_events `{ABI} contents buf st :
  read_file contents buf = Some st -> forallb read_or_fold (rs_events st) = true.
Proof.
  unfold read_file. intros Hread.
  destruct (read_loop_spec (S (length contents))
              {| rs_stream := ifstream_open contents; rs_buffer := buf;
                 rs_checksum := 0; rs_events := [] |})
    as (st1 & evs & Hrun & _ & _ & _ & Hev & Hrf & _); [done|cbn; lia|].
  rewrite Hrun in Hread. cbn [mbind option_bind] in Hread. injection Hread as <-.
  cbn [rs_events app] in Hev. unfold last_partial_read.
  destruct (0 <? gcount (rs_stream st1))%nat; cbn [rs_events]; rewrite Hev; [|done].
  rewrite forallb_app, Hrf. done.
Qed.

Lemma loop_body_sections `{ABI} fs thread_id filename buf m buf' m' evs rest :
  loop_body fs thread_id filename buf m = Some (buf', m', evs) ->
  lock_sections (evs ++ rest)
  = match file_section fs thread_id filename with
    | Some section => section :: lock_sections rest
    | None => lock_sections rest
    end.
Proof.
  unfold loop_body, file_section, lock_sections.
  destruct (fs filename) as [contents|] eqn:Hfs.
  - destruct (read_file_checksum contents buf) as (st & Hread & Hsum).
    rewrite Hread. cbn [mbind option_bind]. intros [= <- <- <-].
    cbn [app sections_aux]. rewrite <- app_assoc.
    rewrite sections_skip by (eapply read_or_fold_no_lock, read_file_events; eauto).
    cbn [app sections_aux]. by rewrite Hsum.
  - by intros [= <- <- <-].
Qed.

Lemma aggregate_files_task_sections `{ABI} fs thread_id files buf m :
  exists m' tr,
    aggregate_files_task fs thread_id files buf m = Some (m', tr)
    /\ lock_sections tr = omap (file_section fs thread_id) files.
Proof.
  revert buf m. induction files as [|filename files IH]; intros buf m.
  - by exists m, [].
  - cbn [aggregate_files_task].
    destruct (loop_body_result fs thread_id filename buf m) as (buf' & evs & Hbody).
    rewrite Hbody. cbn [mbind option_bind].
    destruct (IH buf' (match fs filename with
                       | Some contents =>
                           map_assign filename (recomputed_checksum contents) m
                       | None => m
                       end)) as (m' & tr & -> & Htr).
    cbn [mbind option_bind]. exists m', (evs ++ tr). split; [done|].
    rewrite (loop_body_sections _ _ _ _ _ _ _ _ _ Hbody), Htr. cbn [omap list_omap].
    by destruct (file_section fs thread_id filename).
Qed.

(** C7, as the code has it: a task always runs to its end, and it holds
    the lock once for every artifact it could open; while the lock is
    held it performs the single insert of that artifact's entry and
    then prints the console line for it.  No open, read or close of an
    artifact happens under the lock. *)
Theorem lock_covers_insert_and_console_line
    (abi : ABI) (fs : filesystem) (thread_id : nat) (files : list string)
    (buf : list byte) (m : summary) :
  exists m' tr,
    aggregate_files_task fs thread_id files buf m = Some (m', tr)
    /\ lock_sections tr = omap (file_section fs thread_id) files
    /\ Forall (fun section =>
                 exists name v,
                   section = [EvInsert name v; EvCout thread_id name v])
              (lock_sections tr)
    /\ forallb (fun e => negb (is_file_io e)) (concat (lock_sections tr)) = true.
Proof.
  destruct (aggregate_files_task_sections fs thread_id files buf m)
    as (m' & tr & Hrun & Hsections).
  exists m', tr. split; [done|]. split; [done|]. rewrite Hsections. clear.
  induction files as [|filename files [IH1 IH2]]; [by split|].
  cbn [omap list_omap].
  destruct (file_section fs thread_id filename) as [section|] eqn:Hsec; [|by split].
  unfold file_section in Hsec. destruct (fs filename) as [contents|]; [|done].
  injection Hsec as <-. split; [constructor; eauto|]. by cbn.
Qed.

(** C7 as stated fails: the task that aggregates artifact 1 prints its
    console line between taking and releasing the lock. *)
Lemma console_line_printed_under_lock :
  option_map (fun r => lock_sections (snd r))
    (@aggregate_files_task abi_signed_char fs_two_artifacts 1
       ["/tmp/pgo_benchmark_1.dat"%string] [] [])
  = Some [[EvInsert "/tmp/pgo_benchmark_1.dat" 1158;
           EvCout 1 "/tmp/pgo_benchmark_1.dat" 1158]]
  /\ is_io (EvCout 1 "/tmp/pgo_benchmark_1.dat" 1158) = true
  /\ option_map (fun r => forallb (fun e => negb (is_io e))
                            (concat (lock_sections (snd r))))
       (@aggregate_files_task abi_signed_char fs_two_artifacts 1
          ["/tmp/pgo_benchmark_1.dat"%string] [] [])
     = Some false.
Proof. repeat split; vm_compute; reflexivity. Qed.

(** ** The summary artifact *)

Lemma has_newline_append (a b : string) :
  has_newline (a ++ b) = has_newline a || has_newline b.
Proof.
  induction a as [|c a IH]; [done|]. cbn. by rewrite IH, orb_assoc.
Qed.

Lemma string_of_uint_no_newline (d : Decimal.uint) :
  has_newline (NilEmpty.string_of_uint d) = false.
Proof. induction d; cbn; done. Qed.

Lemma to_string_no_newline (z : Z) : has_newline (to_string z) = false.
Proof.
  unfold to_string, NilEmpty.string_of_int.
  destruct (Z.to_int z); cbn; apply string_of_uint_no_newline.
Qed.

Lemma artifact_path_no_newline (i : nat) : has_newline (artifact_path i) = false.
Proof.
  unfold artifact_path. rewrite !has_newline_append, to_string_no_newline. done.
Qed.

Lemma summary_line_no_newline (e : string * Z) :
  has_newline (fst e) = false -> has_newline (summary_line e) = false.
Proof.
  intros He. unfold summary_line.
  rewrite !has_newline_append, He, to_string_no_newline. done.
Qed.

Lemma lines_terminated (l rest : string) :
  has_newline l = false ->
  lines (l ++ newline ++ rest) = l :: lines rest.
Proof.
  induction l as [|c l IH]; [done|]. cbn [has_newline].
  rewrite orb_false_iff. intros [Hc Hl]. cbn [String.append lines].
  rewrite Hc, (IH Hl). done.
Qed.

Lemma write_summary_fold (m : summary) (outfile : string) :
  fold_left
    (fun outfile pair =>
       (((((outfile ++ "File: ") ++ fst pair) ++ ", Checksum: ")
           ++ to_string (snd pair)) ++ newline)%string)
    m outfile
  = (outfile ++ summary_body m)%string.
Proof.
  revert outfile. induction m as [|e m IH]; intros outfile; cbn [fold_left summary_body foldr].
  - clear. induction outfile as [|c s IH]; cbn; [done|]. by rewrite <- IH.
  - rewrite IH. unfold summary_line. fold (summary_body m).
    by rewrite !string_append_assoc.
Qed.

Lemma write_summary_text (m : summary) :
  write_summary m = (summary_header ++ newline ++ summary_body m)%string.
Proof.
  unfold write_summary. rewrite write_summary_fold. apply string_append_assoc.
Qed.

Lemma summary_body_lines (m : summary) :
  Forall (fun e => has_newline (fst e) = false) m ->
  lines (summary_body m) = map summary_line m.
Proof.
  induction 1 as [|e m He Hm IH]; [done|]. cbn [summary_body foldr map].
  fold (summary_body m). rewrite lines_terminated, IH; [done|].
  by apply summary_line_no_newline.
Qed.

(** C8: the text of the summary artifact is the header line followed by
    one line [File: <name>, Checksum: <value>] for every entry of the
    report, in increasing order of the names; every name is an expected
    artifact that could be opened and the value is the checksum
    recomputed from its bytes, an unsigned 32-bit number printed in
    decimal. *)
Theorem summary_artifact_lines
    (abi : ABI) (fs : filesystem) (stack : nat -> list byte)
    (schedule : list nat) (st : pool_state) (text : string) (status : Z) :
  run_aggregator_process fs stack schedule = Some (st, text, status) ->
  text = (summary_header ++ newline ++ summary_body (report st))%string
  /\ lines text = summary_header :: map summary_line (report st)
  /\ length (lines text) = S (length (report st))
  /\ StronglySorted string_lt (map fst (report st))
  /\ Forall (fun e =>
               fst e ∈ worker_files NUM_WORKER_CHILDREN
               /\ recomputed_checksum <$> fs (fst e) = Some (snd e)
               /\ 0 <= snd e < 2 ^ 32
               /\ summary_line e
                  = ("File: " ++ fst e ++ ", Checksum: " ++ to_string (snd e))%string)
            (report st)
  /\ status = EXIT_SUCCESS.
Proof.
  intros Hrun.
  destruct (aggregator_final_state _ _ _ _ _ _ Hrun)
    as (_ & -> & -> & Hsorted & _).
  assert (Forall (fun e =>
               fst e ∈ worker_files NUM_WORKER_CHILDREN
               /\ recomputed_checksum <$> fs (fst e) = Some (snd e)
               /\ 0 <= snd e < 2 ^ 32
               /\ summary_line e
                  = ("File: " ++ fst e ++ ", Checksum: " ++ to_string (snd e))%string)
            (report st)) as Hentries.
  { apply Forall_forall. intros [name v] Hin.
    apply (report_entries _ _ _ _ _ _ Hrun) in Hin as (Hname & c & Hc & ->).
    cbn [fst snd]. rewrite Hc. repeat split; try done;
      apply chunked_checksum_range. }
  assert (lines (write_summary (report st))
          = summary_header :: map summary_line (report st)) as Hlines.
  { rewrite write_summary_text, lines_terminated by done.
    rewrite summary_body_lines; [done|].
    eapply Forall_impl; [exact Hentries|]. intros e (Hname & _).
    apply elem_of_worker_files in Hname as (i & _ & ->).
    apply artifact_path_no_newline. }
  split; [apply write_summary_text|]. split; [done|].
  split; [by rewrite Hlines; cbn; rewrite length_map|]. done.
Qed.

Lemma summary_artifact_lines_witness :
  exists st text status,
    @run_aggregator_process abi_signed_char fs_two_artifacts (fun _ => [])
      [2; 1; 0; 1; 0]%nat = Some (st, text, status)
    /\ lines text
       = ["--- PGO Benchmark Summary Report ---";
          "File: /tmp/pgo_benchmark_1.dat, Checksum: 1158";
          "File: /tmp/pgo_benchmark_3.dat, Checksum: 3408905217"]%string.
Proof.
  eexists _, _, _. split; [vm_compute; reflexivity|].
  refine (eq_trans
            (proj1 (proj2 (summary_artifact_lines abi_signed_char
                             fs_two_artifacts (fun _ => []) [2; 1; 0; 1; 0]%nat
                             _ _ _ _))) _).
  - vm_compute. reflexivity.
  - vm_compute. reflexivity.
Defined.

(** * Further properties *)

(** ** What the checksum detects and what it does not *)

Lemma byte_val_inj (a b : byte) : byte_val a = byte_val b -> a = b.
Proof.
  unfold byte_val. intros Heq. apply N2Z.inj in Heq.
  pose proof (Byte.of_to_N a) as Ha. rewrite Heq, Byte.of_to_N in Ha. congruence.
Qed.

Lemma char_to_int_inj `{ABI} (a b : byte) : char_to_int a = char_to_int b -> a = b.
Proof.
  unfold char_to_int. intros Heq. apply byte_val_inj.
  pose proof (byte_val_range a). pose proof (byte_val_range b).
  destruct char_signed; cbn [andb] in Heq; [|done].
  destruct (Z.leb_spec 128 (byte_val a)), (Z.leb_spec 128 (byte_val b)); lia.
Qed.

Lemma char_to_int_zero `{ABI} : char_to_int x00 = 0.
Proof. unfold char_to_int. by destruct char_signed. Qed.

(** 33 is odd, hence invertible modulo 2^32: 33 * 1041204193 = 8 * 2^32 + 1. *)
Lemma divide_cancel_33 (d : Z) : (2 ^ 32 | 33 * d) -> (2 ^ 32 | d).
Proof.
  intros [q Hq]. exists (1041204193 * q - 8 * d). lia.
Qed.

Lemma divide_cancel_pow33 (k : nat) (d : Z) :
  (2 ^ 32 | 33 ^ Z.of_nat k * d) -> (2 ^ 32 | d).
Proof.
  induction k as [|k IH]; intros Hdiv.
  - by rewrite Z.pow_0_r, Z.mul_1_l in Hdiv.
  - apply IH, divide_cancel_33.
    rewrite Nat2Z.inj_succ, Z.pow_succ_r, <- Z.mul_assoc in Hdiv by lia. done.
Qed.

(** Multiplication by a power of 33 loses nothing modulo 2^32. *)
Lemma u32_cancel_pow33 (x y f : Z) (k : nat) :
  u32 (x * 33 ^ Z.of_nat k + f) = u32 (y * 33 ^ Z.of_nat k + f) ->
  (2 ^ 32 | x - y).
Proof.
  unfold u32. intros Heq.
  assert (((x * 33 ^ Z.of_nat k + f) - (y * 33 ^ Z.of_nat k + f)) mod 2 ^ 32 = 0)
    as Hdiff by (rewrite Zminus_mod, Heq, Z.sub_diag; done).
  apply Z.mod_divide in Hdiff; [|lia].
  replace (x * 33 ^ Z.of_nat k + f - (y * 33 ^ Z.of_nat k + f))
    with (33 ^ Z.of_nat k * (x - y)) in Hdiff by ring.
  by eapply divide_cancel_pow33.
Qed.

Lemma small_multiple_zero (m d : Z) : 0 < m -> (m | d) -> - m < d < m -> d = 0.
Proof.
  intros Hm [q ->] Hd. assert (q = 0) by nia. lia.
Qed.

Lemma calculate_checksum_middle `{ABI} (l : list byte) (mid r : list byte) :
  calculate_checksum (l ++ mid ++ r) (length (l ++ mid ++ r))
  = u32 (fold_left checksum_step mid (fold_left checksum_step l 0)
         * 33 ^ Z.of_nat (length r)
         + fold_left checksum_step r 0).
Proof.
  unfold calculate_checksum. rewrite firstn_all, !fold_left_app.
  apply fold_checksum_shift, fold_checksum_range, fold_checksum_range. lia.
Qed.

Lemma u32_eq_divide (x y : Z) : u32 x = u32 y -> (2 ^ 32 | x - y).
Proof.
  intros Heq. apply (u32_cancel_pow33 x y 0 0).
  by rewrite !Z.pow_0_r, !Z.mul_1_r, !Z.add_0_r.
Qed.

Lemma checksum_step_inj `{ABI} (c : Z) (a b : byte) :
  checksum_step c a = checksum_step c b -> a = b.
Proof.
  rewrite !checksum_step_33. intros Heq. apply u32_eq_divide in Heq.
  pose proof (char_to_int_range a). pose proof (char_to_int_range b).
  apply char_to_int_inj.
  assert (char_to_int a - char_to_int b = 0); [|lia].
  apply (small_multiple_zero (2 ^ 32)); [lia| |lia].
  by replace (char_to_int a - char_to_int b)
    with (c * 33 + char_to_int a - (c * 33 + char_to_int b)) by ring.
Qed.

Lemma folded_checksums_equal `{ABI} (x y f : Z) (k : nat) :
  0 <= x < 2 ^ 32 -> 0 <= y < 2 ^ 32 ->
  u32 (x * 33 ^ Z.of_nat k + f) = u32 (y * 33 ^ Z.of_nat k + f) -> x = y.
Proof.
  intros Hx Hy Heq. apply u32_cancel_pow33 in Heq.
  assert (x - y = 0); [|lia]. apply (small_multiple_zero (2 ^ 32)); [lia|done|lia].
Qed.

(** X1: changing one byte of a block, wherever it stands, always
    changes the checksum of the block. *)
Theorem single_byte_change_detected (abi : ABI) (l r : list byte) (a b : byte) :
  calculate_checksum (l ++ a :: r) (length (l ++ a :: r))
  = calculate_checksum (l ++ b :: r) (length (l ++ b :: r))
  <-> a = b.
Proof.
  split; [|by intros ->].
  rewrite (calculate_checksum_middle l [a] r), (calculate_checksum_middle l [b] r).
  cbn [fold_left]. intros Heq.
  apply folded_checksums_equal in Heq; try apply checksum_step_range.
  by apply checksum_step_inj in Heq.
Qed.

(** X2: the checksum depends on the order of the bytes: exchanging two
    neighbouring bytes changes it unless the two bytes are equal. *)
Theorem adjacent_swap_detected (abi : ABI) (l r : list byte) (a b : byte) :
  calculate_checksum (l ++ a :: b :: r) (length (l ++ a :: b :: r))
  = calculate_checksum (l ++ b :: a :: r) (length (l ++ b :: a :: r))
  <-> a = b.
Proof.
  split; [|by intros ->].
  rewrite (calculate_checksum_middle l [a; b] r), (calculate_checksum_middle l [b; a] r).
  cbn [fold_left]. set (c := fold_left checksum_step l 0). intros Heq.
  apply folded_checksums_equal in Heq; try apply checksum_step_range.
  rewrite !checksum_step_33 in Heq.
  fold (u32 (c * 33 + char_to_int a)) (u32 (c * 33 + char_to_int b)) in Heq.
  fold (u32 (u32 (c * 33 + char_to_int a) * 33 + char_to_int b)) in Heq.
  fold (u32 (u32 (c * 33 + char_to_int b) * 33 + char_to_int a)) in Heq.
  rewrite <- (u32_add_l (u32 _ * 33)), u32_mul_l, u32_add_l in Heq.
  rewrite <- (u32_add_l (u32 _ * 33)), u32_mul_l, u32_add_l in Heq.
  apply u32_eq_divide in Heq. destruct Heq as [q Hq].
  pose proof (char_to_int_range a). pose proof (char_to_int_range b).
  apply char_to_int_inj.
  assert (char_to_int a - char_to_int b = 0); [|lia].
  apply (small_multiple_zero (2 ^ 27)); [lia| |lia]. exists q. lia.
Qed.

Lemma fold_checksum_zeros `{ABI} (k : nat) :
  fold_left checksum_step (replicate k x00) 0 = 0.
Proof.
  induction k as [|k IH]; [done|]. cbn [replicate fold_left].
  by rewrite checksum_step_33, char_to_int_zero.
Qed.

(** X3: NUL bytes in front of a block do not change its checksum; in
    particular a block of NUL bytes has checksum 0 whatever its
    length. *)
Theorem leading_zero_bytes_ignored (abi : ABI) (k : nat) (l : list byte) :
  calculate_checksum (replicate k x00 ++ l) (k + length l)
  = calculate_checksum l (length l)
  /\ calculate_checksum (replicate k x00) k = 0.
Proof.
  unfold calculate_checksum. split.
  - rewrite take_ge by (rewrite length_app, length_replicate; lia).
    by rewrite fold_left_app, fold_checksum_zeros, firstn_all.
  - rewrite take_ge by (rewrite length_replicate; lia). apply fold_checksum_zeros.
Qed.

(** ** Random data *)

Lemma byte_val_static_cast (v : Z) : byte_val (static_cast_char v) = v mod 256.
Proof.
  unfold static_cast_char, byte_val.
  assert (0 <= v mod 256 < 256) as Hrange by (apply Z.mod_pos_bound; lia).
  destruct (Byte.of_N (Z.to_N (v mod 256))) as [b|] eqn:Hb.
  - apply Byte.to_of_N in Hb. rewrite Hb. lia.
  - apply Byte.of_N_None_iff in Hb. lia.
Qed.

(** X4: [generate_random_data] overwrites exactly the first [size]
    bytes of a buffer that has room for them: the buffer keeps its
    length, the bytes behind the first [size] are untouched, and byte
    [i] holds the value drawn for index [i] reduced modulo 256, which is
    the drawn value itself for a draw in [0, 255]. *)
Theorem generate_random_data_overwrites_prefix
    (draw : nat -> Z) (buffer : list byte) (size : nat) :
  (size <= length buffer)%nat ->
  length (generate_random_data draw buffer size) = length buffer
  /\ drop size (generate_random_data draw buffer size) = drop size buffer
  /\ (forall i, (i < size)%nat ->
        exists b, generate_random_data draw buffer size !! i = Some b
                  /\ byte_val b = draw i mod 256
                  /\ (0 <= draw i <= 255 -> byte_val b = draw i)).
Proof.
  intros Hsize. unfold generate_random_data.
  assert (length (map (fun i => static_cast_char (draw i)) (seq 0 size)) = size)
    as Hlen by (by rewrite length_map, length_seq).
  split; [rewrite length_app, Hlen, length_drop; lia|].
  split; [by rewrite drop_app_length'|].
  intros i Hi. exists (static_cast_char (draw i)). split.
  - rewrite lookup_app_l by lia.
    change (map ?f ?l) with (f <$> l). by rewrite list_lookup_fmap, lookup_seq_lt.
  - rewrite byte_val_static_cast. split; [done|].
    intros Hdraw. apply Z.mod_small. lia.
Qed.

Lemma generate_random_data_overwrites_prefix_witness :
  (2 <= length [x0a; x0b; x0c])%nat
  /\ length (generate_random_data (fun i => 200 + Z.of_nat i) [x0a; x0b; x0c] 2)
     = length [x0a; x0b; x0c].
Proof.
  split; [simpl; lia|].
  refine (proj1 (generate_random_data_overwrites_prefix _ _ _ _)). simpl. lia.
Defined.

(** ** The worker in every environment *)

Lemma writes_done_le env remaining i : (writes_done env remaining i <= remaining)%nat.
Proof.
  revert i. induction remaining as [|remaining IH]; intros i; cbn [writes_done]; [done|].
  destruct (full_write (write_ret env i)); [|lia]. specialize (IH (S i)). lia.
Qed.

Lemma writes_done_full env remaining i j :
  (i <= j < i + writes_done env remaining i)%nat ->
  full_write (write_ret env j) = true.
Proof.
  revert i. induction remaining as [|remaining IH]; intros i; cbn [writes_done]; [lia|].
  destruct (full_write (write_ret env i)) eqn:Hi; [|lia].
  intros Hj. destruct (decide (j = i)) as [->|]; [done|]. apply (IH (S i)). lia.
Qed.

Lemma writes_done_short env remaining i :
  (writes_done env remaining i < remaining)%nat ->
  full_write (write_ret env (i + writes_done env remaining i)) = false.
Proof.
  revert i. induction remaining as [|remaining IH]; intros i; cbn [writes_done]; [lia|].
  destruct (full_write (write_ret env i)) eqn:Hi.
  - intros Hlt. replace (i + S (writes_done env remaining (S i)))%nat
      with (S i + writes_done env remaining (S i))%nat by lia.
    apply IH. lia.
  - intros _. by rewrite Nat.add_0_r.
Qed.

Lemma partial_block_short env k :
  full_write (write_ret env k) = false ->
  (length (partial_block env k) < BUFFER_SIZE)%nat.
Proof.
  unfold partial_block, full_write. pose proof BUFFER_SIZE_pos.
  destruct (write_ret env k) as [|n]; [done|].
  intros Hn%Nat.leb_gt. rewrite length_take. lia.
Qed.

Lemma worker_write_loop `{ABI} env :
  let k := writes_done env WRITES_PER_WORKER 0 in
  let st := write_loop env WRITES_PER_WORKER 0
              {| file := []; data_buffer := heap_garbage env;
                 total_checksum := 0; diagnostics := [] |} in
  let partial := if (k <? WRITES_PER_WORKER)%nat then partial_block env k else [] in
  file st = concat (map (block_of env) (seq 0 k)) ++ partial
  /\ total_checksum st = chunked_checksum (map (block_of env) (seq 0 k))
  /\ diagnostics st
     = (if (k <? WRITES_PER_WORKER)%nat
        then ["Worker failed to write all bytes"%string] else [])
  /\ (length partial < BUFFER_SIZE)%nat.
Proof.
  intros k st partial. subst partial st.
  pose proof (writes_done_le env WRITES_PER_WORKER 0) as Hle. fold k in Hle.
  destruct (Nat.ltb_spec k WRITES_PER_WORKER) as [Hlt|Hge].
  - edestruct (write_loop_short env k WRITES_PER_WORKER 0) as (Hf & Ht & Hd);
      [done|intros j Hj; by apply (writes_done_full env WRITES_PER_WORKER 0)
      |by apply (writes_done_short env WRITES_PER_WORKER 0)|].
    cbn [file total_checksum diagnostics app Nat.add] in Hf, Ht, Hd.
    rewrite Hf, Ht, Hd. repeat split.
    apply partial_block_short. by apply (writes_done_short env WRITES_PER_WORKER 0).
  - assert (k = WRITES_PER_WORKER) as Hk by lia.
    edestruct (write_loop_full env WRITES_PER_WORKER 0) as (Hf & Ht & Hd).
    { intros j Hj. apply (writes_done_full env WRITES_PER_WORKER 0). fold k. lia. }
    cbn [file total_checksum diagnostics app] in Hf, Ht, Hd.
    rewrite Hf, Ht, Hd, Hk, app_nil_r. repeat split. apply BUFFER_SIZE_pos.
Qed.

(** X5: in every environment in which the open succeeds, the
    artifact of the worker consists of the blocks of the [k] writes that
    went through before the first incomplete one ([k] is
    WRITES_PER_WORKER when none is incomplete), followed by the fewer
    than BUFFER_SIZE bytes the incomplete write still transferred; the
    artifact is never longer than WRITES_PER_WORKER * BUFFER_SIZE bytes.
    The reported checksum covers the [k] complete blocks only, it is an
    unsigned 32-bit value, and the failure is reported exactly when a
    write was incomplete.  The worker then exits with a success status,
    unless it leaks and the allocation of the block fails (no memory, or
    a negative [int] size), in which case the null block kills it; it
    exits with a success status whenever it does not leak, and for
    every ordinal from 0 to 16777215 when there is memory for the
    block. *)
Theorem worker_artifact_shape
    (abi : ABI) (env : worker_env) (worker_id : Z) (should_leak : bool) :
  open_ok env = true ->
  let k := writes_done env WRITES_PER_WORKER 0 in
  let partial := if (k <? WRITES_PER_WORKER)%nat then partial_block env k else [] in
  let w := run_worker_process env worker_id should_leak in
  outcome w
  = (if should_leak
        && negb (malloc_ok env && (0 <=? int32 (128 * worker_id + 64)))
     then Killed SIGSEGV else Exited EXIT_SUCCESS)
  /\ (0 <= worker_id <= 16777215 -> malloc_ok env = true ->
      outcome w = Exited EXIT_SUCCESS)
  /\ (should_leak = false -> outcome w = Exited EXIT_SUCCESS)
  /\ (k <= WRITES_PER_WORKER)%nat
  /\ (length partial < BUFFER_SIZE)%nat
  /\ artifact w = Some (concat (map (block_of env) (seq 0 k)) ++ partial)
  /\ length <$> artifact w = Some (k * BUFFER_SIZE + length partial)%nat
  /\ (k * BUFFER_SIZE + length partial <= WRITES_PER_WORKER * BUFFER_SIZE)%nat
  /\ reported_checksum w = chunked_checksum (map (block_of env) (seq 0 k))
  /\ 0 <= reported_checksum w < 2 ^ 32
  /\ worker_diagnostics w
     = (if (k <? WRITES_PER_WORKER)%nat
        then ["Worker failed to write all bytes"%string] else []).
Proof.
  intros Hopen k partial w.
  destruct (worker_write_loop env) as (Hf & Ht & Hd & Hp).
  fold k in Hf, Ht, Hd, Hp. fold partial in Hf, Hp.
  pose proof (writes_done_le env WRITES_PER_WORKER 0) as Hle. fold k in Hle.
  assert (outcome w = snd (terminal_branch env worker_id should_leak)) as Hout.
  { subst w. unfold run_worker_process. by rewrite Hopen. }
  split; [by rewrite Hout, terminal_branch_outcome|].
  split; [intros Hid Hmem; by rewrite Hout, terminal_branch_in_range|].
  split; [intros ->; by rewrite Hout|].
  subst w. unfold run_worker_process. rewrite Hopen.
  cbn [negb artifact reported_checksum worker_diagnostics].
  rewrite Hf, Ht, Hd. split; [done|]. split; [done|].
  split; [done|]. split; [cbn; by rewrite length_app, blocks_length|].
  split.
  { subst partial. destruct (Nat.ltb_spec k WRITES_PER_WORKER); [nia|].
    cbn [length]. nia. }
  split; [done|]. split; [apply chunked_checksum_range|done].
Qed.

Lemma worker_artifact_shape_witness :
  open_ok env_short_write = true
  /\ outcome (@run_worker_process abi_unsigned_char env_short_write 4 false)
     = Exited EXIT_SUCCESS.
Proof.
  split; [reflexivity|].
  refine (proj1 (worker_artifact_shape abi_unsigned_char env_short_write 4 false _)).
  reflexivity.
Defined.

(** ** A partial artifact seen by the aggregator *)

Lemma chunks_with_tail (n fuel : nat) (blocks : list (list byte)) (rest : list byte) :
  Forall (fun c => length c = n) blocks ->
  (length rest < n)%nat ->
  (length (concat blocks ++ rest) < fuel)%nat ->
  full_chunks fuel n (concat blocks ++ rest) = blocks
  /\ last_chunk fuel n (concat blocks ++ rest) = rest.
Proof.
  intros Hall Hrest. revert fuel.
  induction Hall as [|b blocks Hb Hall IH]; intros fuel Hfuel.
  - destruct fuel; [lia|]. cbn [concat app full_chunks last_chunk] in *.
    destruct (Nat.ltb_spec (length rest) n); [done|lia].
  - destruct fuel; [lia|]. cbn [concat] in *.
    rewrite <- app_assoc in *. rewrite length_app in Hfuel.
    cbn [full_chunks last_chunk]. rewrite length_app.
    destruct (Nat.ltb_spec (length b + length (concat blocks ++ rest)) n); [lia|].
    rewrite <- Hb, take_app_length, drop_app_length, Hb.
    destruct (IH fuel) as [-> ->]; [lia|done].
Qed.

Lemma file_chunks_with_tail (blocks : list (list byte)) (rest : list byte) :
  Forall (fun c => length c = BUFFER_SIZE) blocks ->
  (length rest < BUFFER_SIZE)%nat ->
  file_chunks (concat blocks ++ rest) = blocks ++ nonempty_chunk rest.
Proof.
  intros Hall Hrest. unfold file_chunks.
  by destruct (chunks_with_tail BUFFER_SIZE (S (length (concat blocks ++ rest)))
                 blocks rest Hall Hrest) as [-> ->]; [lia|].
Qed.

Lemma recomputed_checksum_with_tail `{ABI} (blocks : list (list byte)) (rest : list byte) :
  Forall (fun c => length c = BUFFER_SIZE) blocks ->
  (length rest < BUFFER_SIZE)%nat ->
  recomputed_checksum (concat blocks ++ rest)
  = add_checksum (chunked_checksum blocks) (calculate_checksum rest (length rest)).
Proof.
  intros Hall Hrest. unfold recomputed_checksum.
  rewrite file_chunks_with_tail by done. destruct rest as [|b rest].
  - cbn [nonempty_chunk length]. rewrite app_nil_r, calculate_checksum_nil.
    symmetry. apply add_checksum_0_r, chunked_checksum_range.
  - cbn [nonempty_chunk]. apply chunked_checksum_app.
Qed.

(** X6: whatever happened to the writes, an aggregator task that finds
    the worker's artifact unchanged records for it the worker's reported
    checksum plus, modulo 2^32, the checksum of the bytes that the
    incomplete write transferred; the two checksums are equal when the
    incomplete write transferred nothing or no write was incomplete. *)
Theorem aggregator_checksum_of_partial_artifact
    (abi : ABI) (env : worker_env) (worker_id : Z) (should_leak : bool)
    (fs : filesystem) (thread_id : nat) (buf : list byte) (m : summary) :
  open_ok env = true ->
  fs (artifact_name (run_worker_process env worker_id should_leak))
  = artifact (run_worker_process env worker_id should_leak) ->
  let k := writes_done env WRITES_PER_WORKER 0 in
  let partial := if (k <? WRITES_PER_WORKER)%nat then partial_block env k else [] in
  let w := run_worker_process env worker_id should_leak in
  let recorded :=
    add_checksum (reported_checksum w) (calculate_checksum partial (length partial)) in
  (exists buf' evs,
     loop_body fs thread_id (artifact_name w) buf m
     = Some (buf', map_assign (artifact_name w) recorded m, evs))
  /\ (partial = [] -> recorded = reported_checksum w).
Proof.
  intros Hopen Hfs k partial w recorded.
  destruct (worker_write_loop env) as (Hf & Ht & _ & Hp).
  fold k in Hf, Ht, Hp. fold partial in Hf, Hp.
  assert (artifact w = Some (concat (map (block_of env) (seq 0 k)) ++ partial)
          /\ reported_checksum w = chunked_checksum (map (block_of env) (seq 0 k)))
    as [Hart Hrep].
  { subst w. unfold run_worker_process. rewrite Hopen.
    cbn [negb artifact reported_checksum]. by rewrite Hf, Ht. }
  fold w in Hfs. rewrite Hart in Hfs. split.
  - destruct (loop_body_opened fs thread_id _ buf m _ Hfs) as (buf' & evs & ->).
    exists buf', evs. subst recorded. rewrite Hrep.
    by rewrite recomputed_checksum_with_tail by (apply blocks_sizes || done).
  - intros Hnil. subst recorded. rewrite Hnil. cbn [length].
    rewrite calculate_checksum_nil, Hrep.
    apply add_checksum_0_r, chunked_checksum_range.
Qed.

Lemma aggregator_checksum_of_partial_artifact_witness :
  open_ok env_short_write = true
  /\ exists buf' evs recorded,
       @loop_body abi_signed_char
         (fs_of_worker (@run_worker_process abi_signed_char env_short_write 2 false))
         1 (artifact_name (@run_worker_process abi_signed_char env_short_write 2 false))
         [] []
       = Some (buf',
               map_assign
                 (artifact_name (@run_worker_process abi_signed_char env_short_write 2 false))
                 recorded [],
               evs).
Proof.
  split; [reflexivity|].
  destruct (aggregator_checksum_of_partial_artifact abi_signed_char env_short_write 2
              false
              (fs_of_worker (@run_worker_process abi_signed_char env_short_write 2 false))
              1%nat [] [])
    as [(buf' & evs & Hbody) _].
  - reflexivity.
  - unfold fs_of_worker. rewrite String.eqb_refl. reflexivity.
  - eexists buf', evs, _. exact Hbody.
Defined.

(** ** Artifact names and the leak flag *)

Lemma string_append_eq_length (a b s t : string) :
  String.length a = String.length b ->
  (a ++ s)%string = (b ++ t)%string -> a = b /\ s = t.
Proof.
  revert b. induction a as [|c a IH]; intros [|d b] Hlen Heq; cbn in *; try done.
  injection Heq as -> Heq. destruct (IH b) as [-> ->]; [lia|done|done].
Qed.

Lemma worker_name_not_summary (z : Z) :
  (FILE_PREFIX ++ to_string z ++ ".dat")%string <> summary_path.
Proof.
  unfold summary_path. intros Heq. apply string_append_inj_r in Heq.
  change "summary.txt"%string with ("summary" ++ ".txt")%string in Heq.
  assert (String.length (to_string z) = String.length "summary") as Hlen.
  { apply (f_equal String.length) in Heq. rewrite !string_length_append in Heq.
    cbn in Heq. cbn. lia. }
  by destruct (string_append_eq_length _ _ _ _ Hlen Heq) as [_ ?].
Qed.

(** X7: the name under which worker [i] creates its artifact is the
    name at position [i] of the list the aggregator expects; workers
    with different ordinals use different names, and no worker uses the
    name of the summary artifact. *)
Theorem worker_names_match_expected
    (abi : ABI) (env : worker_env) (i n : nat) (should_leak : bool) :
  (i < n)%nat ->
  worker_files n !! i
  = Some (artifact_name (run_worker_process env (Z.of_nat i) should_leak))
  /\ (forall (env1 env2 : worker_env) (a b : Z) (l1 l2 : bool),
        artifact_name (run_worker_process env1 a l1)
        = artifact_name (run_worker_process env2 b l2) -> a = b)
  /\ (forall (env' : worker_env) (a : Z) (l : bool),
        artifact_name (run_worker_process env' a l) <> summary_path).
Proof.
  intros Hi.
  assert (forall env' a l,
            artifact_name (run_worker_process env' a l)
            = (FILE_PREFIX ++ to_string a ++ ".dat")%string) as Hname.
  { intros env' a l. unfold run_worker_process. by destruct (open_ok env'). }
  split; [by rewrite Hname, worker_files_lookup|]. split.
  - intros env1 env2 a b l1 l2. rewrite !Hname. intros Heq.
    by apply string_append_inj_r, string_append_inj_l, to_string_inj in Heq.
  - intros env' a l. rewrite Hname. apply worker_name_not_summary.
Qed.

Lemma worker_names_match_expected_witness :
  (3 < 5)%nat
  /\ worker_files 5 !! 3%nat
     = Some (artifact_name (@run_worker_process abi_signed_char env_ok 3 true)).
Proof.
  split; [lia|].
  refine (proj1 (worker_names_match_expected abi_signed_char env_ok 3 5 true _)). lia.
Defined.

Lemma should_leak_flag_parity (i : Z) : should_leak_flag i = Z.odd i.
Proof.
  unfold should_leak_flag. rewrite <- Z.negb_even. f_equal.
  destruct (Z.le_gt_cases 0 i).
  - rewrite Z.rem_mod_nonneg, Zmod_even by lia. by destruct (Z.even i).
  - replace i with (- (- i)) by lia.
    rewrite Z.rem_opp_l', Z.even_opp, Z.rem_mod_nonneg, Zmod_even by lia.
    by destruct (Z.even (- i)).
Qed.

(** X8: the leak flag [i % 2 != 0] is the parity of the ordinal for
    every integer, negative ones included.  A worker started with this
    flag whose open succeeds frees its data buffer and allocates nothing
    else exactly when its ordinal is even, and then exits with a success
    status.  With an odd ordinal from 0 to 16777215 and memory for the
    block it leaks a block of [128 * i + 64] bytes that starts with the
    message, does not free the data buffer and exits with a success
    status.  With a negative odd ordinal (down to -16777216) the [int]
    size is negative, [malloc] is asked for [2^64 + 128 * i + 64] bytes
    and returns a null pointer, and the copy through it kills the
    worker; so does the copy when an odd ordinal finds no memory. *)
Theorem leak_flag_is_parity (abi : ABI) (env : worker_env) (i : Z) :
  open_ok env = true ->
  let w := run_worker_process env i (should_leak_flag i) in
  should_leak_flag i = Z.odd i
  /\ (heap w = Some Freed <-> Z.even i = true)
  /\ (Z.even i = true -> outcome w = Exited EXIT_SUCCESS)
  /\ (0 <= i <= 16777215 -> Z.odd i = true -> malloc_ok env = true ->
      exists contents,
        heap w = Some (Leaked (128 * i + 64) contents)
        /\ Z.of_nat (length contents) = 128 * i + 64
        /\ take 34 contents = list_byte_of_string leak_message ++ [x00]
        /\ outcome w = Exited EXIT_SUCCESS)
  /\ (-16777216 <= i < 0 -> Z.odd i = true ->
      heap w = Some (NullBlock (2 ^ 64 + (128 * i + 64)))
      /\ outcome w = Killed SIGSEGV)
  /\ (Z.odd i = true -> malloc_ok env = false ->
      heap w = Some (NullBlock (size_t_of_int (int32 (128 * i + 64))))
      /\ outcome w = Killed SIGSEGV).
Proof.
  intros Hopen w. split; [apply should_leak_flag_parity|].
  subst w. unfold run_worker_process. rewrite Hopen, should_leak_flag_parity.
  cbn [negb heap outcome]. split; [|split; [|split; [|split]]].
  - rewrite <- Z.negb_even. destruct (Z.even i); cbn [negb]; [done|].
    split; [|done]. unfold terminal_branch. destruct (malloc _ _); [|done].
    by destruct (strcpy _ _).
  - rewrite <- Z.negb_even. by intros ->.
  - intros Hi Hodd Hmem. rewrite Hodd, terminal_branch_in_range by done.
    cbn [fst snd]. eexists. split; [reflexivity|]. split.
    { rewrite length_app, leak_message_bytes, length_drop, length_replicate. lia. }
    split; [|done]. apply take_app_length', leak_message_bytes.
  - intros Hi Hodd. by rewrite Hodd, terminal_branch_negative.
  - intros Hodd Hmem. by rewrite Hodd, terminal_branch_no_memory.
Qed.

Lemma leak_flag_is_parity_witness :
  open_ok env_ok = true /\ should_leak_flag 3 = Z.odd 3.
Proof.
  split; [reflexivity|].
  refine (proj1 (leak_flag_is_parity abi_signed_char env_ok 3 _)). reflexivity.
Defined.

(** ** The read buffer *)

Lemma ifstream_read_bounds (s : ifstream) (buffer : list byte) (n : nat) :
  (gcount (ifstream_read s buffer n).1 <= n)%nat
  /\ drop n (ifstream_read s buffer n).2 = drop n buffer
  /\ ((n <= length buffer)%nat ->
      length (ifstream_read s buffer n).2 = length buffer)
  /\ (failbit s = false -> failbit (ifstream_read s buffer n).1 = true ->
      unread (ifstream_read s buffer n).1 = []).
Proof.
  unfold ifstream_read. destruct (failbit s); cbn [fst snd gcount failbit unread].
  - repeat split; [lia|done].
  - assert (length (take n (unread s)) <= n)%nat as Hgot
        by (rewrite length_take; lia).
    split; [done|]. split; [|split].
    + rewrite drop_app_ge, drop_drop by done. f_equal. lia.
    + intros Hn. rewrite length_app, length_drop. lia.
    + intros _ Hfail. apply negb_true_iff, Nat.eqb_neq in Hfail.
      apply drop_ge. rewrite length_take in Hfail. lia.
Qed.

Lemma read_loop_buffer `{ABI} fuel st st' :
  failbit (rs_stream st) = false ->
  read_loop fuel st = Some st' ->
  (gcount (rs_stream st') <= BUFFER_SIZE)%nat
  /\ drop BUFFER_SIZE (rs_buffer st') = drop BUFFER_SIZE (rs_buffer st)
  /\ ((BUFFER_SIZE <= length (rs_buffer st))%nat ->
      length (rs_buffer st') = length (rs_buffer st))
  /\ unread (rs_stream st') = [].
Proof.
  revert st. induction fuel as [|fuel IH]; intros st Hok Hrun; [done|].
  cbn [read_loop] in Hrun.
  destruct (ifstream_read_bounds (rs_stream st) (rs_buffer st) BUFFER_SIZE)
    as (Hg & Hdrop & Hlen & Hend).
  destruct (ifstream_read (rs_stream st) (rs_buffer st) BUFFER_SIZE) as [s' buf'].
  cbn [fst snd] in *. destruct (failbit s') eqn:Hfail.
  - injection Hrun as <-. cbn [rs_stream rs_buffer]. auto.
  - apply IH in Hrun as (Hg' & Hdrop' & Hlen' & Hend'); [|done].
    cbn [rs_stream rs_buffer] in *. rewrite Hdrop', Hdrop.
    split; [done|]. split; [done|]. split; [|done].
    intros Hn. rewrite Hlen', Hlen; [done|done|]. by rewrite Hlen.
Qed.

(** X9: reading an artifact never writes outside the first BUFFER_SIZE
    bytes of the read buffer: a buffer of at least BUFFER_SIZE bytes
    keeps its length and the bytes behind the first BUFFER_SIZE.  The
    read ends with the whole file consumed, no read delivers more than
    BUFFER_SIZE bytes, and the checksum does not depend on what the
    buffer held before. *)
Theorem read_stays_inside_buffer (abi : ABI) (contents buf : list byte) :
  (BUFFER_SIZE <= length buf)%nat ->
  exists st,
    read_file contents buf = Some st
    /\ length (rs_buffer st) = length buf
    /\ drop BUFFER_SIZE (rs_buffer st) = drop BUFFER_SIZE buf
    /\ (gcount (rs_stream st) <= BUFFER_SIZE)%nat
    /\ unread (rs_stream st) = []
    /\ (forall buf2, exists st2,
          read_file contents buf2 = Some st2 /\ rs_checksum st2 = rs_checksum st).
Proof.
  intros Hbuf. destruct (read_file_checksum contents buf) as (st & Hread & Hsum).
  exists st. split; [done|].
  unfold read_file in Hread.
  destruct (read_loop _ _) as [st1|] eqn:Hloop; [|done].
  cbn [mbind option_bind] in Hread. injection Hread as <-.
  apply read_loop_buffer in Hloop as (Hg & Hdrop & Hlen & Hend); [|done].
  cbn [rs_buffer] in Hdrop, Hlen.
  assert (rs_buffer (last_partial_read st1) = rs_buffer st1
          /\ rs_stream (last_partial_read st1) = rs_stream st1) as [-> ->].
  { unfold last_partial_read. by destruct (0 <? gcount (rs_stream st1))%nat. }
  split; [by apply Hlen|]. split; [done|]. split; [done|]. split; [done|].
  intros buf2. destruct (read_file_checksum contents buf2) as (st2 & Hread2 & Hsum2).
  exists st2. split; [done|]. by rewrite Hsum2, Hsum.
Qed.

Lemma read_stays_inside_buffer_witness :
  (BUFFER_SIZE <= length (replicate 1030 xff))%nat
  /\ exists st,
       @read_file abi_signed_char [x01; x02; x03] (replicate 1030 xff) = Some st
       /\ length (rs_buffer st) = length (replicate 1030 xff).
Proof.
  split; [vm_compute; lia|].
  destruct (read_stays_inside_buffer abi_signed_char [x01; x02; x03]
              (replicate 1030 xff)) as (st & Hread & Hlen & _).
  - vm_compute. lia.
  - exists st. split; assumption.
Defined.

(** ** A task and the report it is given *)

Lemma aggregate_files_task_lookup `{ABI} fs thread_id files buf m :
  exists m' tr,
    aggregate_files_task fs thread_id files buf m = Some (m', tr)
    /\ (forall name, map_find name m' = task_lookup fs files m name)
    /\ (StronglySorted string_lt (map fst m) ->
        StronglySorted string_lt (map fst m')).
Proof.
  revert buf m. induction files as [|f rest IH]; intros buf m.
  - exists m, []. split; [done|]. split; [|done].
    intros name. unfold task_lookup. by rewrite bool_decide_eq_false_2 by apply not_elem_of_nil.
  - cbn [aggregate_files_task].
    destruct (loop_body_result fs thread_id f buf m) as (buf' & evs & ->).
    cbn [mbind option_bind].
    set (m1 := match fs f with
               | Some contents => map_assign f (recomputed_checksum contents) m
               | None => m
               end).
    destruct (IH buf' m1) as (m' & tr & -> & Hfind & Hsorted).
    cbn [mbind option_bind]. exists m', (evs ++ tr). split; [done|]. split.
    + intros name. rewrite Hfind. unfold task_lookup.
      assert (name <> f -> map_find name m1 = map_find name m) as Hother.
      { intros Hne. subst m1. destruct (fs f); [|done].
        rewrite map_find_assign. apply String.eqb_neq in Hne. by rewrite Hne. }
      assert (map_find f m1
              = match fs f with
                | Some contents => Some (recomputed_checksum contents)
                | None => map_find f m
                end) as Hsame.
      { subst m1. destruct (fs f); [|done].
        by rewrite map_find_assign, String.eqb_refl. }
      destruct (decide (name = f)) as [->|Hne].
      * rewrite (bool_decide_eq_true_2 (f ∈ f :: rest)) by apply list_elem_of_here.
        case_bool_decide; [|done]. rewrite Hsame. by destruct (fs f).
      * rewrite Hother by done. case_bool_decide as Hin.
        -- by rewrite bool_decide_eq_true_2 by (by apply list_elem_of_further).
        -- rewrite bool_decide_eq_false_2; [done|].
           by intros [?|?]%elem_of_cons.
    + intros Hm. apply Hsorted. subst m1.
      destruct (fs f); [by apply map_assign_sorted|done].
Qed.

Lemma aggregate_files_task_unreadable `{ABI} fs thread_id files buf m :
  Forall (fun f => fs f = None) files ->
  aggregate_files_task fs thread_id files buf m
  = Some (m, flat_map (fun f => [EvOpen f false; EvCerr thread_id f]) files).
Proof.
  induction 1 as [|f rest Hf Hrest IH]; [done|].
  cbn [aggregate_files_task flat_map]. unfold loop_body. rewrite Hf.
  cbn [mbind option_bind]. rewrite IH. done.
Qed.

(** X10: a task run on a report that already has entries always
    completes; it replaces or creates the entry of every file of its
    list that it can open, leaves an existing entry of a file it cannot
    open as it was, touches no entry of any other name and keeps the
    report ordered.  When none of its files can be opened the report is
    returned unchanged and the task only logs the failed opens; an empty
    file list does nothing. *)
Theorem task_updates_only_its_files
    (abi : ABI) (fs : filesystem) (thread_id : nat) (files : list string)
    (buf : list byte) (m : summary) :
  exists m' tr,
    aggregate_files_task fs thread_id files buf m = Some (m', tr)
    /\ (forall name,
          map_find name m'
          = if bool_decide (name ∈ files) then
              match fs name with
              | Some contents => Some (recomputed_checksum contents)
              | None => map_find name m
              end
            else map_find name m)
    /\ (StronglySorted string_lt (map fst m) ->
        StronglySorted string_lt (map fst m'))
    /\ (Forall (fun f => fs f = None) files ->
        m' = m
        /\ tr = flat_map (fun f => [EvOpen f false; EvCerr thread_id f]) files)
    /\ aggregate_files_task fs thread_id [] buf m = Some (m, []).
Proof.
  destruct (aggregate_files_task_lookup fs thread_id files buf m)
    as (m' & tr & Hrun & Hfind & Hsorted).
  exists m', tr. split; [done|]. split; [exact Hfind|]. split; [done|].
  split; [|done]. intros Hall.
  rewrite (aggregate_files_task_unreadable fs thread_id files buf m Hall) in Hrun.
  by injection Hrun as <- <-.
Qed.

(** ** The ordered map *)

Lemma map_find_above (k : string) (m : summary) :
  Forall (string_lt k) (map fst m) -> map_find k m = None.
Proof.
  induction m as [|[k2 v2] m IH]; [done|]. cbn [map fst map_find].
  intros [Hlt Hall]%Forall_cons. destruct (String.eqb_spec k k2) as [->|]; [|by apply IH].
  by apply string_lt_irrefl in Hlt.
Qed.

Lemma string_compare_cases (a b : string) :
  string_lt a b \/ a = b \/ string_lt b a.
Proof.
  destruct (String.compare a b) eqn:Hcmp.
  - right. left. by apply String.compare_eq_iff.
  - by left.
  - right. right. by apply string_compare_gt_lt.
Qed.

(** Two ordered maps with the same lookups are the same list. *)
Lemma sorted_map_ext (m1 m2 : summary) :
  StronglySorted string_lt (map fst m1) ->
  StronglySorted string_lt (map fst m2) ->
  (forall k, map_find k m1 = map_find k m2) -> m1 = m2.
Proof.
  revert m2. induction m1 as [|[k1 v1] m1 IH]; intros [|[k2 v2] m2] Hs1 Hs2 Hfind.
  - done.
  - specialize (Hfind k2). cbn in Hfind. by rewrite String.eqb_refl in Hfind.
  - specialize (Hfind k1). cbn in Hfind. by rewrite String.eqb_refl in Hfind.
  - cbn [map fst] in Hs1, Hs2.
    apply StronglySorted_inv in Hs1 as [Hs1 Hall1].
    apply StronglySorted_inv in Hs2 as [Hs2 Hall2].
    assert (k1 = k2) as <-.
    { destruct (string_compare_cases k1 k2) as [Hlt|[Heq|Hlt]]; [|done|].
      - specialize (Hfind k1). cbn [map_find] in Hfind.
        rewrite String.eqb_refl in Hfind.
        destruct (String.eqb_spec k1 k2) as [->|]; [by apply string_lt_irrefl in Hlt|].
        rewrite map_find_above in Hfind; [done|].
        eapply Forall_impl; [exact Hall2|]. intros k. by apply string_lt_trans.
      - specialize (Hfind k2). cbn [map_find] in Hfind.
        rewrite String.eqb_refl in Hfind.
        destruct (String.eqb_spec k2 k1) as [->|]; [by apply string_lt_irrefl in Hlt|].
        rewrite map_find_above in Hfind; [done|].
        eapply Forall_impl; [exact Hall1|]. intros k. by apply string_lt_trans. }
    assert (v1 = v2) as <-.
    { specialize (Hfind k1). cbn [map_find] in Hfind.
      rewrite String.eqb_refl in Hfind. by injection Hfind. }
    f_equal. apply IH; [done|done|]. intros k.
    destruct (String.eqb_spec k k1) as [->|Hne].
    + by rewrite !map_find_above.
    + specialize (Hfind k). cbn [map_find] in Hfind.
      apply String.eqb_neq in Hne. by rewrite Hne in Hfind.
Qed.

Lemma map_assign_length (k : string) (v : Z) (m : summary) :
  StronglySorted string_lt (map fst m) ->
  length (map_assign k v m)
  = match map_find k m with Some _ => length m | None => S (length m) end.
Proof.
  induction m as [|[k2 v2] m IH]; [done|]. cbn [map fst map_assign map_find].
  intros [Hs Hall]%StronglySorted_inv.
  destruct (String.compare k k2) eqn:Hcmp.
  - apply String.compare_eq_iff in Hcmp. subst k2. by rewrite String.eqb_refl.
  - destruct (String.eqb_spec k k2) as [->|];
      [by rewrite string_compare_refl in Hcmp|].
    rewrite map_find_above; [done|].
    eapply Forall_impl; [exact Hall|]. intros k3. by apply string_lt_trans.
  - destruct (String.eqb_spec k k2) as [->|];
      [by rewrite string_compare_refl in Hcmp|].
    cbn [length]. rewrite IH by done. by destruct (map_find k m).
Qed.

(** X11: on an ordered report, [summary[k] = v] followed by a lookup of
    [k] yields [v] and lookups of other keys are unchanged; a second
    assignment to the same key replaces the first; assignments to
    different keys commute; the report grows by one entry exactly when
    the key was absent; and the report stays ordered. *)
Theorem map_assign_laws (k k' : string) (v v' : Z) (m : summary) :
  StronglySorted string_lt (map fst m) ->
  map_find k (map_assign k v m) = Some v
  /\ (k' <> k -> map_find k' (map_assign k v m) = map_find k' m)
  /\ map_assign k v' (map_assign k v m) = map_assign k v' m
  /\ (k' <> k ->
      map_assign k v (map_assign k' v' m) = map_assign k' v' (map_assign k v m))
  /\ length (map_assign k v m)
     = match map_find k m with Some _ => length m | None => S (length m) end
  /\ StronglySorted string_lt (map fst (map_assign k v m)).
Proof.
  intros Hs. split; [by rewrite map_find_assign, String.eqb_refl|].
  split.
  { intros Hne. rewrite map_find_assign. apply String.eqb_neq in Hne. by rewrite Hne. }
  split.
  { apply sorted_map_ext; [by do 2 apply map_assign_sorted|by apply map_assign_sorted|].
    intros k0. rewrite !map_find_assign. by destruct (String.eqb k0 k). }
  split.
  { intros Hne. apply sorted_map_ext; [by do 2 apply map_assign_sorted..|].
    intros k0. rewrite !map_find_assign.
    destruct (String.eqb_spec k0 k) as [->|]; [|done].
    apply String.eqb_neq in Hne. rewrite String.eqb_sym in Hne. by rewrite Hne. }
  split; [by apply map_assign_length|by apply map_assign_sorted].
Qed.

Lemma map_assign_laws_witness :
  StronglySorted string_lt (map fst [("a"%string, 1); ("c"%string, 3)])
  /\ map_find "b" (map_assign "b" 2 [("a"%string, 1); ("c"%string, 3)]) = Some 2.
Proof.
  assert (StronglySorted string_lt (map fst [("a"%string, 1); ("c"%string, 3)])) as Hs.
  { repeat constructor. }
  split; [exact Hs|].
  exact (proj1 (map_assign_laws "b" "a" 2 0 [("a"%string, 1); ("c"%string, 3)] Hs)).
Defined.

(** ** The report and the schedule *)

(** X12: the report and the text of the summary artifact do not depend
    on how the threads of the pool are interleaved, nor on what their
    read buffers held at the start: any two runs on the same files in
    which every thread finishes produce the same report, the same text
    and the same exit status, and the report is the one a single task
    produces that processes all expected artifacts in list order. *)
Theorem report_independent_of_schedule
    (abi : ABI) (fs : filesystem) (stack1 stack2 : nat -> list byte)
    (schedule1 schedule2 : list nat) (st1 st2 : pool_state)
    (text1 text2 : string) (status1 status2 : Z) (buf : list byte) :
  run_aggregator_process fs stack1 schedule1 = Some (st1, text1, status1) ->
  run_aggregator_process fs stack2 schedule2 = Some (st2, text2, status2) ->
  report st1 = report st2
  /\ text1 = text2
  /\ status1 = status2
  /\ exists tr,
       aggregate_files_task fs 0 (worker_files NUM_WORKER_CHILDREN) buf []
       = Some (report st1, tr).
Proof.
  intros Hrun1 Hrun2.
  destruct (aggregator_final_state _ _ _ _ _ _ Hrun1) as (_ & -> & -> & Hs1 & Hf1).
  destruct (aggregator_final_state _ _ _ _ _ _ Hrun2) as (_ & -> & -> & Hs2 & Hf2).
  assert (report st1 = report st2) as Heq.
  { apply sorted_map_ext; [done|done|]. intros k. by rewrite Hf1, Hf2. }
  split; [done|]. split; [by rewrite Heq|]. split; [done|].
  destruct (aggregate_files_task_lookup fs 0 (worker_files NUM_WORKER_CHILDREN) buf [])
    as (m & tr & Htask & Hfind & Hsorted).
  exists tr. rewrite Htask. do 2 f_equal. symmetry.
  apply sorted_map_ext; [done|apply Hsorted; constructor|].
  intros k. rewrite Hf1, Hfind. unfold task_lookup. cbn [map_find].
  case_bool_decide; [|done]. by destruct (fs k).
Qed.

Lemma report_independent_of_schedule_witness :
  exists st1 text1 status1 st2 text2 status2,
    @run_aggregator_process abi_signed_char fs_two_artifacts (fun _ => [])
      [0; 1; 2; 0; 1]%nat = Some (st1, text1, status1)
    /\ @run_aggregator_process abi_signed_char fs_two_artifacts (fun _ => [xff])
         [2; 1; 1; 0; 0]%nat = Some (st2, text2, status2)
    /\ report st1 = report st2.
Proof.
  eexists _, _, _, _, _, _.
  split; [vm_compute; reflexivity|]. split; [vm_compute; reflexivity|].
  refine (proj1 (report_independent_of_schedule abi_signed_char fs_two_artifacts
                   (fun _ => []) (fun _ => [xff]) [0; 1; 2; 0; 1]%nat
                   [2; 1; 1; 0; 0]%nat _ _ _ _ _ _ [] _ _)).
  - vm_compute. reflexivity.
  - vm_compute. reflexivity.
Defined.

(** X13: when none of the expected artifacts can be opened, the
    aggregator still finishes with a success status; the report is
    empty and the summary artifact holds the header line and nothing
    else.  Some schedule lets every thread finish, with this result. *)
Theorem summary_without_artifacts
    (abi : ABI) (fs : filesystem) (stack : nat -> list byte)
    (schedule : list nat) (st : pool_state) (text : string) (status : Z) :
  Forall (fun name => fs name = None) (worker_files NUM_WORKER_CHILDREN) ->
  (run_aggregator_process fs stack schedule = Some (st, text, status) ->
   report st = []
   /\ text = (summary_header ++ newline)%string
   /\ lines text = [summary_header]
   /\ status = EXIT_SUCCESS)
  /\ (exists schedule' st',
        run_aggregator_process fs stack schedule'
        = Some (st', (summary_header ++ newline)%string, EXIT_SUCCESS)
        /\ all_joined st' = true
        /\ report st' = []).
Proof.
  intros Hnone.
  assert (forall schedule0 st0 text0 status0,
            run_aggregator_process fs stack schedule0 = Some (st0, text0, status0) ->
            all_joined st0 = true
            /\ report st0 = []
            /\ text0 = (summary_header ++ newline)%string
            /\ lines text0 = [summary_header]
            /\ status0 = EXIT_SUCCESS) as Hany.
  { intros schedule0 st0 text0 status0 Hrun.
    destruct (aggregator_final_state _ _ _ _ _ _ Hrun) as (Hj & -> & -> & Hs & Hfind).
    assert (report st0 = []) as ->.
    { apply sorted_map_ext; [done|constructor|]. intros k. rewrite Hfind.
      cbn [map_find]. case_bool_decide as Hk; [|done].
      rewrite Forall_forall in Hnone. by rewrite (Hnone k Hk). }
    repeat split. exact Hj. }
  split.
  - intros Hrun. by destruct (Hany _ _ _ _ Hrun) as (_ & ? & ? & ? & ?).
  - destruct (some_schedule_joins fs stack) as (schedule' & st' & text' & Hrun).
    destruct (Hany _ _ _ _ Hrun) as (Hj & Hrep & Htext & _ & _).
    exists schedule', st'. by rewrite <- Htext.
Qed.

Lemma summary_without_artifacts_witness :
  Forall (fun name => fs_empty name = None) (worker_files NUM_WORKER_CHILDREN)
  /\ exists st text status,
       @run_aggregator_process abi_signed_char fs_empty (fun _ => [])
         [0; 0; 1; 1; 2]%nat = Some (st, text, status)
       /\ report st = [].
Proof.
  assert (Forall (fun name => fs_empty name = None) (worker_files NUM_WORKER_CHILDREN))
    as Hnone by (apply Forall_forall; reflexivity).
  split; [exact Hnone|]. eexists _, _, _. split; [vm_compute; reflexivity|].
  refine (proj1 (proj1 (summary_without_artifacts abi_signed_char fs_empty (fun _ => [])
                   [0; 0; 1; 1; 2]%nat _ _ _ Hnone) _)).
  vm_compute. reflexivity.
Defined.

(** ** Balance of the round-robin partition *)

Lemma share_succ (n nthreads t : nat) :
  (0 < nthreads)%nat -> (t < nthreads)%nat ->
  share (S n) nthreads t
  = (share n nthreads t + (if decide (n mod nthreads = t)%nat then 1 else 0))%nat.
Proof.
  intros Hpos Ht. unfold share.
  pose proof (Nat.div_mod_eq n nthreads) as Hn.
  assert (n mod nthreads < nthreads)%nat as Hr by (apply Nat.mod_upper_bound; lia).
  set (q := (n / nthreads)%nat) in *. set (r := (n mod nthreads)%nat) in *.
  destruct (decide (S r < nthreads)%nat) as [Hsmall|Hwrap].
  - assert (S n / nthreads = q)%nat as ->
        by (symmetry; apply (Nat.div_unique _ _ _ (S r)); lia).
    assert (S n mod nthreads = S r)%nat as ->
        by (symmetry; apply (Nat.mod_unique _ _ q); lia).
    destruct (Nat.ltb_spec t (S r)), (Nat.ltb_spec t r), (decide (r = t)); lia.
  - assert (S n / nthreads = S q)%nat as ->
        by (symmetry; apply (Nat.div_unique _ _ _ 0); lia).
    assert (S n mod nthreads = 0)%nat as ->
        by (symmetry; apply (Nat.mod_unique _ _ (S q)); lia).
    destruct (Nat.ltb_spec t 0), (Nat.ltb_spec t r), (decide (r = t)); lia.
Qed.

Lemma positions_count (n nthreads t : nat) :
  (0 < nthreads)%nat -> (t < nthreads)%nat ->
  length (filter (fun i => (i mod nthreads)%nat = t) (seq 0 n)) = share n nthreads t.
Proof.
  intros Hpos Ht. induction n as [|n IH].
  - unfold share. rewrite Nat.Div0.div_0_l, Nat.Div0.mod_0_l. done.
  - rewrite seq_S, filter_app, length_app, IH, share_succ by done.
    cbn [Nat.add]. f_equal. destruct (decide (n mod nthreads = t)%nat).
    + by rewrite filter_cons_True.
    + by rewrite filter_cons_False.
Qed.

Lemma share_bounds (n nthreads t1 t2 : nat) :
  (share n nthreads t1 <= S (share n nthreads t2))%nat.
Proof.
  unfold share.
  destruct (t1 <? n mod nthreads)%nat, (t2 <? n mod nthreads)%nat; lia.
Qed.

Lemma map_nth_seq (files : list string) :
  map (fun i => nth i files EmptyString) (seq 0 (length files)) = files.
Proof.
  induction files as [|f files IH] using rev_ind; [done|].
  rewrite length_app. cbn [length]. rewrite Nat.add_1_r, seq_S, map_app.
  cbn [Nat.add map]. rewrite app_nth2, Nat.sub_diag by lia. cbn [nth]. f_equal.
  rewrite <- IH at 2. apply map_ext_in. intros i Hi%in_seq.
  apply app_nth1. lia.
Qed.

Lemma filter_mod_one (n : nat) :
  filter (fun i => (i mod 1)%nat = 0%nat) (seq 0 n) = seq 0 n.
Proof.
  induction n as [|n IH]; [done|].
  rewrite seq_S, filter_app, IH. cbn [Nat.add]. f_equal.
Qed.

(** X14: the partition is balanced by count: out of [n] files thread
    [t] receives [n / nthreads] files, and one more when
    [t < n mod nthreads], so two threads never differ by more than one
    file and a thread whose number is not below [n] receives none.  A
    pool of one thread receives the whole list in its order. *)
Theorem round_robin_is_balanced (nthreads : nat) (files : list string) :
  (0 < nthreads)%nat ->
  (forall t, (t < nthreads)%nat ->
     exists chunk,
       distribute nthreads files !! t = Some chunk
       /\ length chunk = share (length files) nthreads t
       /\ ((length files <= t)%nat -> chunk = []))
  /\ (forall t1 t2 c1 c2,
        distribute nthreads files !! t1 = Some c1 ->
        distribute nthreads files !! t2 = Some c2 ->
        (length c1 <= S (length c2))%nat)
  /\ distribute 1 files = [files].
Proof.
  intros Hpos.
  destruct (distribute_spec nthreads files Hpos) as (Hlen & Hlook & _).
  assert (forall t c, distribute nthreads files !! t = Some c ->
            length c = share (length files) nthreads t) as Hsize.
  { intros t c Hc. assert (t < nthreads)%nat as Ht
        by (apply lookup_lt_Some in Hc; lia).
    rewrite Hlook in Hc by done. injection Hc as <-.
    rewrite length_map. by apply positions_count. }
  split; [|split].
  - intros t Ht. eexists. split; [by apply Hlook|]. split.
    + rewrite length_map. by apply positions_count.
    + intros Hle. apply length_zero_iff_nil.
      rewrite length_map, positions_count by done. unfold share.
      rewrite Nat.div_small, Nat.mod_small by lia.
      destruct (Nat.ltb_spec t (length files)); lia.
  - intros t1 t2 c1 c2 Hc1 Hc2. rewrite (Hsize _ _ Hc1), (Hsize _ _ Hc2).
    apply share_bounds.
  - destruct (distribute_spec 1 files) as (Hlen1 & Hlook1 & _); [lia|].
    specialize (Hlook1 0%nat ltac:(lia)).
    destruct (distribute 1 files) as [|c [|c' rest]]; [done| |done].
    change ([c] !! 0%nat) with (Some c) in Hlook1. injection Hlook1 as ->.
    by rewrite filter_mod_one, map_nth_seq.
Qed.

Lemma round_robin_is_balanced_witness :
  (0 < 3)%nat
  /\ forall t1 t2 c1 c2,
       distribute 3 (worker_files 5) !! t1 = Some c1 ->
       distribute 3 (worker_files 5) !! t2 = Some c2 ->
       (length c1 <= S (length c2))%nat.
Proof.
  split; [lia|].
  refine (proj1 (proj2 (round_robin_is_balanced 3 (worker_files 5) _))). lia.
Defined.

(** ** Workers and aggregator together *)

Lemma fs_after_workers_path `{ABI} (envs : nat -> worker_env) (n i : nat) :
  (i < n)%nat ->
  fs_after_workers envs n (artifact_path i)
  = artifact (run_worker_process (envs i) (Z.of_nat i) (should_leak_flag (Z.of_nat i))).
Proof.
  intros Hi. unfold fs_after_workers.
  destruct (list_find _ _) as [[j x]|] eqn:Hfind.
  - apply list_find_Some in Hfind as (_ & Hx & _).
    by rewrite (artifact_path_inj _ _ Hx).
  - apply list_find_None in Hfind. rewrite Forall_forall in Hfind.
    destruct (Hfind i); [apply elem_of_seq; lia|done].
Qed.

Lemma writes_done_all env remaining i :
  (forall k, (i <= k < i + remaining)%nat -> full_write (write_ret env k) = true) ->
  writes_done env remaining i = remaining.
Proof.
  intros Hfull. pose proof (writes_done_le env remaining i).
  destruct (decide (writes_done env remaining i < remaining)%nat) as [Hlt|]; [|lia].
  pose proof (writes_done_short env remaining i Hlt) as Hshort.
  rewrite Hfull in Hshort; [done|lia].
Qed.

Lemma worker_complete_artifact `{ABI} env worker_id should_leak :
  open_ok env = true ->
  (forall k, (k < WRITES_PER_WORKER)%nat -> full_write (write_ret env k) = true) ->
  exists contents,
    artifact (run_worker_process env worker_id should_leak) = Some contents
    /\ recomputed_checksum contents
       = reported_checksum (run_worker_process env worker_id should_leak).
Proof.
  intros Hopen Hfull. destruct (worker_write_loop env) as (Hf & Ht & _ & _).
  rewrite writes_done_all in Hf, Ht by (intros k Hk; apply Hfull; lia).
  rewrite Nat.ltb_irrefl, app_nil_r in Hf.
  unfold run_worker_process. rewrite Hopen. cbn [negb artifact reported_checksum].
  eexists. split; [done|]. rewrite Hf, Ht. unfold recomputed_checksum.
  by rewrite file_chunks_blocks by apply blocks_sizes.
Qed.

Lemma map_find_paths (f : nat -> Z) (l : list nat) (k : string) :
  map_find k (map (fun i => (artifact_path i, f i)) l)
  = match list_find (fun i => artifact_path i = k) l with
    | Some (_, i) => Some (f i)
    | None => None
    end.
Proof.
  induction l as [|j l IH]; [done|]. cbn [map map_find list_find].
  destruct (String.eqb_spec k (artifact_path j)) as [->|Hne].
  - by rewrite decide_True.
  - rewrite decide_False by done. rewrite IH.
    by destruct (list_find _ l) as [[? ?]|].
Qed.

Lemma expected_paths_sorted :
  StronglySorted string_lt (map artifact_path (seq 0 NUM_WORKER_CHILDREN)).
Proof.
  unfold NUM_WORKER_CHILDREN. cbn [seq map].
  repeat (apply SSorted_cons;
          [|repeat (constructor; [vm_compute; reflexivity|]); constructor]).
  apply SSorted_nil.
Qed.

(** X15: when every worker opens its artifact and completes all its
    writes, and the aggregator then runs on the files the workers left,
    some schedule lets the aggregator finish, and whenever it finishes
    the report lists the five artifacts in the order of their ordinals,
    each with the checksum its worker reported, and the summary artifact
    has the header line and one line per worker. *)
Theorem pipeline_reports_worker_checksums
    (abi : ABI) (envs : nat -> worker_env) (stack : nat -> list byte) :
  (forall i, (i < NUM_WORKER_CHILDREN)%nat ->
     open_ok (envs i) = true
     /\ forall k, (k < WRITES_PER_WORKER)%nat ->
          full_write (write_ret (envs i) k) = true) ->
  (exists schedule st text,
     run_aggregator_process (fs_after_workers envs NUM_WORKER_CHILDREN) stack schedule
     = Some (st, text, EXIT_SUCCESS))
  /\ (forall schedule st text status,
        run_aggregator_process (fs_after_workers envs NUM_WORKER_CHILDREN) stack
          schedule = Some (st, text, status) ->
        report st
        = map (fun i =>
                 (artifact_path i,
                  reported_checksum
                    (run_worker_process (envs i) (Z.of_nat i)
                       (should_leak_flag (Z.of_nat i)))))
              (seq 0 NUM_WORKER_CHILDREN)
        /\ lines text
           = summary_header
             :: map (fun i =>
                       ("File: " ++ artifact_path i ++ ", Checksum: "
                        ++ to_string
                             (reported_checksum
                                (run_worker_process (envs i) (Z.of_nat i)
                                   (should_leak_flag (Z.of_nat i)))))%string)
                    (seq 0 NUM_WORKER_CHILDREN)
        /\ length (lines text) = S NUM_WORKER_CHILDREN
        /\ status = EXIT_SUCCESS).
Proof.
  intros Hworkers. split; [apply some_schedule_joins|].
  intros schedule st text status Hrun.
  destruct (aggregator_final_state _ _ _ _ _ _ Hrun) as (_ & -> & -> & Hs & Hfind).
  assert (report st
          = map (fun i =>
                   (artifact_path i,
                    reported_checksum
                      (run_worker_process (envs i) (Z.of_nat i)
                         (should_leak_flag (Z.of_nat i)))))
                (seq 0 NUM_WORKER_CHILDREN)) as Hreport.
  { apply sorted_map_ext; [done| |].
    - rewrite map_map. apply expected_paths_sorted.
    - intros k. rewrite Hfind, map_find_paths. case_bool_decide as Hk.
      + apply elem_of_worker_files in Hk as (i & Hi & ->).
        rewrite fs_after_workers_path by done.
        destruct (Hworkers i Hi) as [Hopen Hfull].
        destruct (worker_complete_artifact (envs i) (Z.of_nat i)
                    (should_leak_flag (Z.of_nat i)) Hopen Hfull)
          as (contents & Hart & Hsum).
        rewrite Hart. cbn [fmap option_fmap option_map]. rewrite Hsum.
        destruct (list_find _ _) as [[j x]|] eqn:Hlf.
        * apply list_find_Some in Hlf as (_ & Hx & _).
          by rewrite (artifact_path_inj _ _ Hx).
        * apply list_find_None in Hlf. rewrite Forall_forall in Hlf.
          destruct (Hlf i); [apply elem_of_seq; lia|done].
      + destruct (list_find _ _) as [[j x]|] eqn:Hlf; [|done].
        apply list_find_Some in Hlf as (Hj & Hx & _). destruct Hk.
        apply elem_of_worker_files. exists x. split; [|done].
        apply lookup_seq in Hj. lia. }
  assert (lines (write_summary (report st))
          = summary_header :: map summary_line (report st)) as Hlines.
  { rewrite write_summary_text, lines_terminated by done.
    rewrite summary_body_lines; [done|]. rewrite Hreport.
    apply Forall_map, Forall_forall. intros i _. apply artifact_path_no_newline. }
  split; [done|]. rewrite Hlines, Hreport, map_map. split; [done|].
  split; [|done]. cbn [length]. by rewrite length_map, length_seq.
Qed.

Lemma pipeline_reports_worker_checksums_witness :
  (forall i, (i < NUM_WORKER_CHILDREN)%nat ->
     open_ok env_ok = true
     /\ forall k, (k < WRITES_PER_WORKER)%nat -> full_write (write_ret env_ok k) = true)
  /\ exists schedule st text,
       @run_aggregator_process abi_signed_char
         (@fs_after_workers abi_signed_char (fun _ => env_ok) NUM_WORKER_CHILDREN)
         (fun _ => []) schedule = Some (st, text, EXIT_SUCCESS).
Proof.
  assert (forall i, (i < NUM_WORKER_CHILDREN)%nat ->
     open_ok env_ok = true
     /\ forall k, (k < WRITES_PER_WORKER)%nat -> full_write (write_ret env_ok k) = true)
    as Hok.
  { intros i _. split; [reflexivity|]. intros k _. vm_compute. reflexivity. }
  split; [exact Hok|].
  exact (proj1 (pipeline_reports_worker_checksums abi_signed_char (fun _ => env_ok)
                  (fun _ => []) Hok)).
Defined.

(** ** The supervisor *)

Lemma fork_workers_all (env : main_env) (remaining i : nat) (st : main_state) :
  (forall k, (i <= k < i + remaining)%nat -> fork_ret env k <> ForkFailed) ->
  fork_workers env remaining i st
  = MainContinue
      {| child_pids :=
           child_pids st ++ map (fun k => fork_pid (fork_ret env k)) (seq i remaining);
         spawned :=
           spawned st
           ++ map (fun k => WorkerChild (Z.of_nat k) (should_leak_flag (Z.of_nat k)))
                  (seq i remaining);
         main_log := main_log st |}.
Proof.
  revert i st. induction remaining as [|remaining IH]; intros i st Hok.
  - cbn. rewrite !app_nil_r. by destruct st.
  - cbn [fork_workers seq map].
    destruct (fork_ret env i) as [|pid] eqn:Hi; [by destruct (Hok i ltac:(lia))|].
    rewrite IH by (intros k Hk; apply Hok; lia).
    cbn [child_pids spawned main_log fork_pid]. by rewrite <- !app_assoc.
Qed.

Lemma fork_workers_fails (env : main_env) (k remaining i : nat) (st : main_state) :
  (k < remaining)%nat ->
  (forall j, (i <= j < i + k)%nat -> fork_ret env j <> ForkFailed) ->
  fork_ret env (i + k) = ForkFailed ->
  fork_workers env remaining i st
  = MainExit
      {| child_pids :=
           child_pids st ++ map (fun j => fork_pid (fork_ret env j)) (seq i k);
         spawned :=
           spawned st
           ++ map (fun j => WorkerChild (Z.of_nat j) (should_leak_flag (Z.of_nat j)))
                  (seq i k);
         main_log := main_log st ++ [MainPerror "Failed to fork worker"] |}.
Proof.
  revert remaining i st. induction k as [|k IH]; intros remaining i st Hk Hok Hfail.
  - destruct remaining as [|remaining]; [lia|]. rewrite Nat.add_0_r in Hfail.
    cbn [fork_workers seq map]. rewrite Hfail, !app_nil_r. done.
  - destruct remaining as [|remaining]; [lia|]. cbn [fork_workers seq map].
    destruct (fork_ret env i) as [|pid] eqn:Hi; [by destruct (Hok i ltac:(lia))|].
    rewrite (IH remaining (S i)); [| lia | intros j Hj; apply Hok; lia
                                   | by replace (S i + k)%nat with (i + S k)%nat by lia].
    cbn [child_pids spawned main_log fork_pid]. by rewrite <- !app_assoc.
Qed.

Lemma wait_children_log (env : main_env) (pids : list Z) (log : list main_event) :
  wait_children env pids log = log ++ map (wait_report env) pids.
Proof.
  revert log. induction pids as [|pid pids IH]; intros log; cbn [wait_children map].
  - by rewrite app_nil_r.
  - rewrite IH, <- app_assoc. done.
Qed.

Lemma remove_files_lookup (l : list nat) (fs : filesystem) (name : string) :
  fold_left (fun fs i => remove_file (FILE_PREFIX ++ to_string (Z.of_nat i) ++ ".dat") fs)
            l fs name
  = if bool_decide (name ∈ map artifact_path l) then None else fs name.
Proof.
  revert fs. induction l as [|i l IH]; intros fs; cbn [fold_left map].
  - by rewrite bool_decide_eq_false_2 by apply not_elem_of_nil.
  - rewrite IH. unfold remove_file. fold (artifact_path i).
    destruct (String.eqb_spec name (artifact_path i)) as [->|Hne].
    + rewrite (bool_decide_eq_true_2 (_ ∈ _ :: _)) by apply list_elem_of_here.
      by case_bool_decide.
    + case_bool_decide as Hin.
      * by rewrite bool_decide_eq_true_2 by (by apply list_elem_of_further).
      * rewrite bool_decide_eq_false_2; [done|]. by intros [?|?]%elem_of_cons.
Qed.

Lemma cleanup_lookup (fs : filesystem) (name : string) :
  cleanup fs name
  = if bool_decide (name ∈ summary_path :: worker_files NUM_WORKER_CHILDREN)
    then None else fs name.
Proof.
  unfold cleanup, remove_file at 1. rewrite remove_files_lookup.
  change (map artifact_path (seq 0 NUM_WORKER_CHILDREN))
    with (worker_files NUM_WORKER_CHILDREN).
  destruct (String.eqb_spec name summary_path) as [->|Hne].
  - by rewrite bool_decide_eq_true_2 by apply list_elem_of_here.
  - case_bool_decide as Hin.
    + by rewrite bool_decide_eq_true_2 by (by apply list_elem_of_further).
    + rewrite bool_decide_eq_false_2; [done|]. by intros [?|?]%elem_of_cons.
Qed.

(** X16: when every fork succeeds the supervisor returns 0 whatever
    the children's exit statuses are and whether or not a wait fails.
    It has forked one worker per ordinal, each with the parity of its
    ordinal as leak flag, and then the aggregator; it waits once for
    every child, in the order in which they were forked; and it ends by
    removing the worker artifacts and the summary artifact. *)
Theorem main_returns_success_when_forks_succeed (env : main_env) (fs : filesystem) :
  (forall k, (k <= NUM_WORKER_CHILDREN)%nat -> fork_ret env k <> ForkFailed) ->
  main_status (main env fs) = 0
  /\ child_pids (main_final (main env fs))
     = map (fun k => fork_pid (fork_ret env k)) (seq 0 (S NUM_WORKER_CHILDREN))
  /\ spawned (main_final (main env fs))
     = map (fun call => WorkerChild (fst call) (snd call)) main_worker_calls
       ++ [AggregatorChild]
  /\ main_log (main_final (main env fs))
     = map (wait_report env) (child_pids (main_final (main env fs)))
  /\ (forall name, fs_after (main env fs) name = cleanup fs name)
  /\ (forall name,
        name ∈ summary_path :: worker_files NUM_WORKER_CHILDREN ->
        fs_after (main env fs) name = None)
  /\ (forall name,
        name ∉ summary_path :: worker_files NUM_WORKER_CHILDREN ->
        fs_after (main env fs) name = fs name).
Proof.
  intros Hok. unfold main.
  rewrite fork_workers_all by (intros k Hk; apply Hok; lia).
  cbn [child_pids spawned main_log app].
  destruct (fork_ret env NUM_WORKER_CHILDREN) as [|pid] eqn:Hagg;
    [by destruct (Hok NUM_WORKER_CHILDREN ltac:(lia))|].
  cbn [main_status main_final fs_after child_pids spawned main_log].
  split; [done|]. split.
  { rewrite seq_S, map_app. cbn [Nat.add map]. by rewrite Hagg. }
  split; [by unfold main_worker_calls; rewrite map_map|].
  split; [by rewrite wait_children_log|]. split; [done|]. split.
  - intros name Hname. rewrite cleanup_lookup. by rewrite bool_decide_eq_true_2.
  - intros name Hname. rewrite cleanup_lookup. by rewrite bool_decide_eq_false_2.
Qed.

Lemma main_returns_success_when_forks_succeed_witness :
  (forall k, (k <= NUM_WORKER_CHILDREN)%nat -> fork_ret main_env_ok k <> ForkFailed)
  /\ main_status (main main_env_ok fs_two_artifacts) = 0.
Proof.
  assert (forall k, (k <= NUM_WORKER_CHILDREN)%nat -> fork_ret main_env_ok k <> ForkFailed)
    as Hok by (intros k _; discriminate).
  split; [exact Hok|].
  exact (proj1 (main_returns_success_when_forks_succeed main_env_ok fs_two_artifacts Hok)).
Defined.

(** X17: when a fork fails the supervisor exits at once with a failure
    status: the children forked before are neither waited for nor are
    any files removed, and the only thing reported is the failed fork. *)
Theorem main_exits_on_fork_failure (env : main_env) (fs : filesystem) (k : nat) :
  (k <= NUM_WORKER_CHILDREN)%nat ->
  (forall j, (j < k)%nat -> fork_ret env j <> ForkFailed) ->
  fork_ret env k = ForkFailed ->
  main_status (main env fs) = EXIT_FAILURE
  /\ child_pids (main_final (main env fs))
     = map (fun j => fork_pid (fork_ret env j)) (seq 0 k)
  /\ length (spawned (main_final (main env fs))) = k
  /\ main_log (main_final (main env fs))
     = [MainPerror (if (k <? NUM_WORKER_CHILDREN)%nat
                    then "Failed to fork worker" else "Failed to fork aggregator")]
  /\ (forall name, fs_after (main env fs) name = fs name).
Proof.
  intros Hk Hok Hfail. unfold main.
  destruct (Nat.ltb_spec k NUM_WORKER_CHILDREN) as [Hlt|Hge].
  - rewrite (fork_workers_fails env k) by (done || (intros j Hj; apply Hok; lia)).
    cbn [main_status main_final fs_after child_pids spawned main_log app].
    repeat split; rewrite ?length_map, ?length_seq; done.
  - assert (k = NUM_WORKER_CHILDREN) as -> by lia.
    rewrite fork_workers_all by (intros j Hj; apply Hok; lia). rewrite Hfail.
    cbn [main_status main_final fs_after child_pids spawned main_log app].
    repeat split; rewrite ?length_map, ?length_seq; done.
Qed.

Lemma main_exits_on_fork_failure_witness :
  (2 <= NUM_WORKER_CHILDREN)%nat
  /\ fork_ret main_env_fork_fails 2 = ForkFailed
  /\ main_status (main main_env_fork_fails fs_two_artifacts) = EXIT_FAILURE.
Proof.
  split; [vm_compute; lia|]. split; [reflexivity|].
  refine (proj1 (main_exits_on_fork_failure main_env_fork_fails fs_two_artifacts 2 _ _ _)).
  - vm_compute. lia.
  - intros j Hj. destruct j as [|[|j]]; [discriminate|discriminate|lia].
  - reflexivity.
Defined.

(** X18: the cleanup removes exactly the summary artifact and the
    expected worker artifacts and leaves every other file as it was;
    files that are already missing make no difference, and running the
    cleanup a second time changes nothing. *)
Theorem cleanup_removes_only_artifacts (fs : filesystem) (name : string) :
  cleanup fs name
  = (if bool_decide (name ∈ summary_path :: worker_files NUM_WORKER_CHILDREN)
     then None else fs name)
  /\ cleanup (cleanup fs) name = cleanup fs name
  /\ cleanup fs_empty name = None.
Proof.
  split; [apply cleanup_lookup|]. rewrite !cleanup_lookup.
  split; by case_bool_decide.
Qed.
